(** * A backup application: full and incremental snapshots of a directory tree

    Shallow embedding of [backup_app.cpp] (class [BackupApp]) and the
    properties of its two entry points, [create_backup] and
    [incremental_backup].

    The file system is a tree of directories whose entries keep the order in
    which the operating system lists them; paths are lists of components
    counted from the root; exceptions are an explicit outcome of every
    computation; the console and the calls made to the file system are
    recorded in the state. *)

From Stdlib Require Import String List ZArith Lia Ascii Bool Arith.
From Stdlib Require Import Strings.Byte.
From Stdlib Require Import DecimalString.
Import ListNotations.

Open Scope string_scope.
Open Scope nat_scope.
Open Scope list_scope.

(* ================================================================= *)
(** ** MD5 (RFC 1321), with the Init / Update / Final interface that
       [calculate_md5] drives. Words are 32-bit, kept in [Z] with the
       wrap-around written out. *)

Module MD5.

Definition w32 (x : Z) : Z := x mod 2 ^ 32.

Definition lnot32 (x : Z) : Z := Z.lxor x 0xffffffff.

Definition rotl (x s : Z) : Z :=
  w32 (Z.lor (Z.shiftl x s) (Z.shiftr x (32 - s))).

Definition K : list Z :=
  [ 0xd76aa478; 0xe8c7b756; 0x242070db; 0xc1bdceee;
    0xf57c0faf; 0x4787c62a; 0xa8304613; 0xfd469501;
    0x698098d8; 0x8b44f7af; 0xffff5bb1; 0x895cd7be;
    0x6b901122; 0xfd987193; 0xa679438e; 0x49b40821;
    0xf61e2562; 0xc040b340; 0x265e5a51; 0xe9b6c7aa;
    0xd62f105d; 0x02441453; 0xd8a1e681; 0xe7d3fbc8;
    0x21e1cde6; 0xc33707d6; 0xf4d50d87; 0x455a14ed;
    0xa9e3e905; 0xfcefa3f8; 0x676f02d9; 0x8d2a4c8a;
    0xfffa3942; 0x8771f681; 0x6d9d6122; 0xfde5380c;
    0xa4beea44; 0x4bdecfa9; 0xf6bb4b60; 0xbebfbc70;
    0x289b7ec6; 0xeaa127fa; 0xd4ef3085; 0x04881d05;
    0xd9d4d039; 0xe6db99e5; 0x1fa27cf8; 0xc4ac5665;
    0xf4292244; 0x432aff97; 0xab9423a7; 0xfc93a039;
    0x655b59c3; 0x8f0ccc92; 0xffeff47d; 0x85845dd1;
    0x6fa87e4f; 0xfe2ce6e0; 0xa3014314; 0x4e0811a1;
    0xf7537e82; 0xbd3af235; 0x2ad7d2bb; 0xeb86d391 ]%Z.

Definition S : list Z :=
  [ 7; 12; 17; 22; 7; 12; 17; 22; 7; 12; 17; 22; 7; 12; 17; 22;
    5;  9; 14; 20; 5;  9; 14; 20; 5;  9; 14; 20; 5;  9; 14; 20;
    4; 11; 16; 23; 4; 11; 16; 23; 4; 11; 16; 23; 4; 11; 16; 23;
    6; 10; 15; 21; 6; 10; 15; 21; 6; 10; 15; 21; 6; 10; 15; 21 ]%Z.

(** The chaining value: the four words a, b, c, d. *)
Definition chain : Type := (Z * Z * Z * Z)%type.

Definition round (M : list Z) (st : chain) (i : nat) : chain :=
  let '(a, b, c, d) := st in
  let '(f, g) :=
    if (i <? 16)%nat then (Z.lor (Z.land b c) (Z.land (lnot32 b) d), i)
    else if (i <? 32)%nat then
      (Z.lor (Z.land d b) (Z.land (lnot32 d) c), ((5 * i + 1) mod 16)%nat)
    else if (i <? 48)%nat then
      (Z.lxor b (Z.lxor c d), ((3 * i + 5) mod 16)%nat)
    else (Z.lxor c (Z.lor b (lnot32 d)), ((7 * i) mod 16)%nat) in
  let f' := w32 (f + a + nth i K 0 + nth g M 0)%Z in
  (d, w32 (b + rotl f' (nth i S 0))%Z, b, c).

(** Little-endian words of a block of bytes. *)
Fixpoint words (bs : list Z) (n : nat) : list Z :=
  match n with
  | O => []
  | Datatypes.S n' =>
      match bs with
      | b0 :: b1 :: b2 :: b3 :: r =>
          (b0 + 256 * b1 + 65536 * b2 + 16777216 * b3)%Z :: words r n'
      | _ => []
      end
  end.

Definition block (st : chain) (bs : list Z) : chain :=
  let '(a0, b0, c0, d0) := st in
  let '(a, b, c, d) := fold_left (round (words bs 16)) (seq 0 64) st in
  (w32 (a0 + a), w32 (b0 + b), w32 (c0 + c), w32 (d0 + d))%Z.

(** [MD5_CTX]: chaining value, bytes not yet forming a whole block, and the
    number of bytes seen. *)
Record MD5_CTX : Type := mkCtx {
  h : chain;
  pending : list Z;
  total : Z
}.

Definition MD5_Init : MD5_CTX :=
  mkCtx (0x67452301, 0xefcdab89, 0x98badcfe, 0x10325476)%Z [] 0.

(** Consume whole 64-byte blocks; [fuel] bounds the number of blocks. *)
Fixpoint blocks (fuel : nat) (st : chain) (bs : list Z) : chain * list Z :=
  match fuel with
  | O => (st, bs)
  | Datatypes.S fuel' =>
      if (64 <=? length bs)%nat
      then blocks fuel' (block st (firstn 64 bs)) (skipn 64 bs)
      else (st, bs)
  end.

Definition byteZ (b : byte) : Z := Z.of_N (Byte.to_N b).

Definition MD5_Update (ctx : MD5_CTX) (buf : list byte) : MD5_CTX :=
  let bs := pending ctx ++ map byteZ buf in
  let '(st, rest) := blocks (Datatypes.S (length bs / 64)%nat) (h ctx) bs in
  mkCtx st rest (total ctx + Z.of_nat (length buf)).

Definition le_bytes (n : nat) (x : Z) : list Z :=
  map (fun i => (Z.shiftr x (8 * Z.of_nat i)) mod 256)%Z (seq 0 n).

Definition MD5_DIGEST_LENGTH : nat := 16.

Definition MD5_Final (ctx : MD5_CTX) : list Z :=
  let n := length (pending ctx) in
  let zeros := if (n <? 56)%nat then (55 - n)%nat else (119 - n)%nat in
  let tail := (128 :: repeat 0 zeros)%Z ++ le_bytes 8 (8 * total ctx) in
  let '(st, _) := blocks 2 (h ctx) (pending ctx ++ tail) in
  let '(a, b, c, d) := st in
  le_bytes 4 a ++ le_bytes 4 b ++ le_bytes 4 c ++ le_bytes 4 d.

End MD5.

(* ================================================================= *)
(** ** Paths ([fs::path])

    A path is the list of its components, counted from the root directory
    for an absolute path. The paths handed to the application are taken to be
    absolute, normalised and free of symbolic links, so that the
    canonicalisation done by [fs::relative] is the identity. *)

Definition fs_path : Type := list string.

Definition path_eqb (p q : fs_path) : bool :=
  if list_eq_dec string_dec p q then true else false.

(** [p / q] *)
Definition path_append (p q : fs_path) : fs_path := p ++ q.
Infix "//" := path_append (at level 40, left associativity).

Definition parent_path (p : fs_path) : fs_path := removelast p.

Definition filename (p : fs_path) : string := last p "".

Fixpoint strip_common (p base : fs_path) : fs_path * fs_path :=
  match p, base with
  | c :: p', d :: base' =>
      if String.eqb c d then strip_common p' base' else (p, base)
  | _, _ => (p, base)
  end.

(** [fs::relative(p, base)]: what is left of [p] after the components it
    shares with [base], behind one [..] for each remaining component of
    [base]; [.] when nothing is left. *)
Definition relative (p base : fs_path) : fs_path :=
  let '(rp, rb) := strip_common p base in
  match repeat ".." (length rb) ++ rp with
  | [] => ["."]
  | r => r
  end.

(** [operator<] of paths: component by component, each as a byte string. *)
Fixpoint path_compare (p q : fs_path) : comparison :=
  match p, q with
  | [], [] => Eq
  | [], _ :: _ => Lt
  | _ :: _, [] => Gt
  | c :: p', d :: q' =>
      match String.compare c d with
      | Eq => path_compare p' q'
      | r => r
      end
  end.

Definition path_ltb (p q : fs_path) : bool :=
  match path_compare p q with Lt => true | _ => false end.

Fixpoint insert_sorted (p : fs_path) (l : list fs_path) : list fs_path :=
  match l with
  | [] => [p]
  | q :: r => if path_ltb q p then q :: insert_sorted p r else p :: l
  end.

(** [std::sort] on a vector of paths. *)
Definition sort_paths (l : list fs_path) : list fs_path :=
  fold_right insert_sorted [] l.

(** Text of a path: [string()] and the quoted form written by [<<]. *)
Definition dquote : string := String (ascii_of_nat 34) EmptyString.

Definition absolute_string (p : fs_path) : string :=
  match p with
  | [] => "/"
  | _ => String.concat "" (map (fun c => ("/" ++ c)%string) p)
  end.

Definition relative_string (p : fs_path) : string := String.concat "/" p.

Fixpoint escape (s : string) : string :=
  match s with
  | EmptyString => EmptyString
  | String c r =>
      if (Nat.eqb (nat_of_ascii c) 34 || Nat.eqb (nat_of_ascii c) 92)%bool
      then String (ascii_of_nat 92) (String c (escape r))
      else String c (escape r)
  end.

Definition quoted (s : string) : string :=
  (dquote ++ escape s ++ dquote)%string.

Definition decimal (n : nat) : string :=
  NilEmpty.string_of_uint (Nat.to_uint n).

(* ================================================================= *)
(** ** The file system

    A regular file holds its bytes and its time of last write; a directory
    holds its entries in the order in which the system lists them (an order
    the program has no say in). Symbolic links and permissions on directories
    are not modelled. A hard link is a second file with the same bytes: the
    two are not told to be one file, which shows only in a run that writes
    through a link left by an earlier run (two runs within one second). *)

#[warnings="-register-all"]
Inductive node : Type :=
  | File (data : list byte) (mtime : Z)
  | Dir (entries : list (string * node)).

Fixpoint assoc (c : string) (es : list (string * node)) : option node :=
  match es with
  | [] => None
  | (d, n) :: r => if String.eqb c d then Some n else assoc c r
  end.

(** Replace the entry named [c], or add it behind the others. *)
Fixpoint put (c : string) (n : node) (es : list (string * node))
  : list (string * node) :=
  match es with
  | [] => [(c, n)]
  | (d, m) :: r => if String.eqb c d then (d, n) :: r else (d, m) :: put c n r
  end.

Fixpoint lookup (p : fs_path) (t : node) : option node :=
  match p with
  | [] => Some t
  | c :: p' =>
      match t with
      | File _ _ => None
      | Dir es =>
          match assoc c es with
          | Some n => lookup p' n
          | None => None
          end
      end
  end.

(** A chain of fresh, empty directories. *)
Fixpoint fresh_dirs (p : fs_path) : node :=
  match p with
  | [] => Dir []
  | c :: p' => Dir [(c, fresh_dirs p')]
  end.

(** [mkdir -p]: [None] when a component of [p] is a regular file. *)
Fixpoint mkdirs (p : fs_path) (t : node) : option node :=
  match t with
  | File _ _ => None
  | Dir es =>
      match p with
      | [] => Some t
      | c :: p' =>
          match assoc c es with
          | Some n =>
              match mkdirs p' n with
              | Some n' => Some (Dir (put c n' es))
              | None => None
              end
          | None => Some (Dir (put c (fresh_dirs p') es))
          end
      end
  end.

(** Put node [n] at [p]; [None] unless the parent of [p] is a directory. *)
Fixpoint set_node (p : fs_path) (n : node) (t : node) : option node :=
  match p with
  | [] => None
  | c :: p' =>
      match t with
      | File _ _ => None
      | Dir es =>
          match p' with
          | [] => Some (Dir (put c n es))
          | _ :: _ =>
              match assoc c es with
              | Some m =>
                  match set_node p' n m with
                  | Some m' => Some (Dir (put c m' es))
                  | None => None
                  end
              | None => None
              end
          end
      end
  end.

(** Everything below [p], depth first, a directory before its content:
    the sequence a [recursive_directory_iterator] runs through. *)
Fixpoint walk (p : fs_path) (t : node) : list (fs_path * node) :=
  match t with
  | File _ _ => []
  | Dir es =>
      (fix go (es : list (string * node)) : list (fs_path * node) :=
         match es with
         | [] => []
         | (c, n) :: r => (p // [c], n) :: walk (p // [c]) n ++ go r
         end) es
  end.

Definition is_regular_file (n : node) : bool :=
  match n with File _ _ => true | Dir _ => false end.

Definition is_directory (n : node) : bool :=
  match n with File _ _ => false | Dir _ => true end.

(* ================================================================= *)
(** ** The state of a run, and computations that may throw *)

(** [struct FileInfo] *)
Record FileInfo : Type := mkFileInfo {
  path : fs_path;
  md5 : string;
  size : nat;
  last_modified : Z
}.

(** [struct BackupInfo]; the counters are [size_t] and never exceed the
    length of a vector, so they are kept in [nat]. *)
Record BackupInfo : Type := mkBackupInfo {
  timestamp : string;
  backup_path : fs_path;
  file_count : nat;
  copied_files : nat;
  source_dir : fs_path;
  is_incremental : bool;
  based_on : string
}.

(** The calls that change the file system, in the order they were made, each
    with whether it went through. *)
Inductive call : Type :=
  | CreateDirectories (p : fs_path) (ok : bool)
  | CopyFile (from to : fs_path) (ok : bool)
  | CreateHardLink (from to : fs_path) (ok : bool)
  | AppendText (p : fs_path) (ok : bool).

Record State : Type := mkState {
  disk : node;
  backup_history : list BackupInfo;
  cout : list string;
  cerr : list string;
  calls : list call
}.

Inductive exn : Type :=
  | runtime_error (what : string)
  | filesystem_error (what : string).

Definition what (e : exn) : string :=
  match e with runtime_error w => w | filesystem_error w => w end.

Inductive outcome (A : Type) : Type :=
  | Normal (a : A) (s : State)
  | Raised (e : exn) (s : State).
Arguments Normal {A} a s.
Arguments Raised {A} e s.

Definition M (A : Type) : Type := State -> outcome A.

Definition ret {A} (a : A) : M A := fun s => Normal a s.

Definition bind {A B} (m : M A) (k : A -> M B) : M B :=
  fun s =>
    match m s with
    | Normal a s' => k a s'
    | Raised e s' => Raised e s'
    end.

(** [try { m } catch (...) { handler }] *)
Definition try_catch {A} (m : M A) (handler : exn -> M A) : M A :=
  fun s =>
    match m s with
    | Normal a s' => Normal a s'
    | Raised e s' => handler e s'
    end.

Notation "x <- m ;; k" := (bind m (fun x => k))
  (at level 61, m at next level, right associativity).
Notation "m ;; k" := (bind m (fun _ => k))
  (at level 61, right associativity).

(** A loop over a vector with a loop-carried value. *)
Fixpoint foldM {A B} (body : B -> A -> M B) (l : list A) (b : B) : M B :=
  match l with
  | [] => ret b
  | a :: r => b' <- body b a ;; foldM body r b'
  end.

Definition state_of {A} (o : outcome A) : State :=
  match o with Normal _ s => s | Raised _ s => s end.

Definition returned {A} (o : outcome A) : option A :=
  match o with Normal a _ => Some a | Raised _ _ => None end.

Definition with_disk (t : node) (s : State) : State :=
  mkState t (backup_history s) (cout s) (cerr s) (calls s).

Definition log_call (c : call) (s : State) : State :=
  mkState (disk s) (backup_history s) (cout s) (cerr s) (calls s ++ [c]).

Definition cout_line (text : string) : M unit :=
  fun s => Normal tt
    (mkState (disk s) (backup_history s) (cout s ++ [text]) (cerr s) (calls s)).

Definition cerr_line (text : string) : M unit :=
  fun s => Normal tt
    (mkState (disk s) (backup_history s) (cout s) (cerr s ++ [text]) (calls s)).

(** The state after more lines went to [std::cerr]. *)
Definition add_cerr (lines : list string) (s : State) : State :=
  mkState (disk s) (backup_history s) (cout s) (cerr s ++ lines) (calls s).

(** The state after more lines went to [std::cout]. *)
Definition add_cout (lines : list string) (s : State) : State :=
  mkState (disk s) (backup_history s) (cout s ++ lines) (cerr s) (calls s).

(** Two states that differ on the console at most. *)
Definition same_but_console (s s' : State) : Prop :=
  disk s' = disk s /\ backup_history s' = backup_history s /\ calls s' = calls s.

(** [backup_history.push_back] *)
Definition push_back_history (b : BackupInfo) : M unit :=
  fun s => Normal tt
    (mkState (disk s) (backup_history s ++ [b]) (cout s) (cerr s) (calls s)).

(* ================================================================= *)
(** ** The environment of a run: the clock and the faults of the system *)

(** [std::tm] as [localtime_r] fills it. *)
Record tm : Type := mkTm {
  tm_year : nat;   (* years since 1900 *)
  tm_mon : nat;    (* 0 .. 11 *)
  tm_mday : nat;
  tm_hour : nat;
  tm_min : nat;
  tm_sec : nat
}.

Record Env : Type := mkEnv {
  local_time : tm;
  (** time stamped on a file that is written *)
  file_clock : Z;
  (** the file cannot be opened for reading *)
  unreadable : fs_path -> bool;
  (** the system refuses this copy (permissions, full disk, ...) *)
  copy_denied : fs_path -> fs_path -> bool;
  (** the system refuses this hard link (other device, no support, ...) *)
  link_denied : fs_path -> fs_path -> bool
}.

Definition newline : string := String (ascii_of_nat 10) EmptyString.

Section BackupApp.

Variable env : Env.

(* ----------------------------------------------------------------- *)
(** *** Calls to the file system *)

Definition fs_exists (p : fs_path) : M bool :=
  fun s => Normal (match lookup p (disk s) with Some _ => true | None => false end) s.

Definition create_directories (p : fs_path) : M unit :=
  fun s =>
    match mkdirs p (disk s) with
    | Some t => Normal tt (log_call (CreateDirectories p true) (with_disk t s))
    | None =>
        Raised (filesystem_error "filesystem error: cannot create directories")
               (log_call (CreateDirectories p false) s)
    end.

(** [fs::copy_file(from, to, overwrite_existing)] on the disk: [from] must be
    a regular file other than [to], [to] must not be a directory and its
    parent must be one. *)
Definition copy_file_disk (from to : fs_path) (t : node) : option node :=
  if copy_denied env from to then None
  else
    match lookup from t with
    | Some (File d _) =>
        if path_eqb from to then None
        else
          match lookup to t with
          | Some (Dir _) => None
          | _ => set_node to (File d (file_clock env)) t
          end
    | _ => None
    end.

Definition copy_file (from to : fs_path) : M unit :=
  fun s =>
    match copy_file_disk from to (disk s) with
    | Some t => Normal tt (log_call (CopyFile from to true) (with_disk t s))
    | None =>
        Raised (filesystem_error "filesystem error: cannot copy file")
               (log_call (CopyFile from to false) s)
    end.

(** [fs::create_hard_link(from, to)] on the disk: [from] must be a regular
    file and nothing may exist at [to]. *)
Definition create_hard_link_disk (from to : fs_path) (t : node) : option node :=
  if link_denied env from to then None
  else
    match lookup from t with
    | Some (File d m) =>
        match lookup to t with
        | Some _ => None
        | None => set_node to (File d m) t
        end
    | _ => None
    end.

Definition create_hard_link (from to : fs_path) : M unit :=
  fun s =>
    match create_hard_link_disk from to (disk s) with
    | Some t => Normal tt (log_call (CreateHardLink from to true) (with_disk t s))
    | None =>
        Raised (filesystem_error "filesystem error: cannot create hard link")
               (log_call (CreateHardLink from to false) s)
    end.

(** [std::ofstream f(p, std::ios::app); if (f) f << text;] — the stream is
    good when [p] is a regular file, or is absent from a directory. *)
Definition append_text_disk (p : fs_path) (text : string) (t : node)
  : option node :=
  match lookup p t with
  | Some (File d _) =>
      set_node p (File (d ++ list_byte_of_string text) (file_clock env)) t
  | Some (Dir _) => None
  | None => set_node p (File (list_byte_of_string text) (file_clock env)) t
  end.

Definition append_text (p : fs_path) (text : string) : M unit :=
  fun s =>
    match append_text_disk p text (disk s) with
    | Some t => Normal tt (log_call (AppendText p true) (with_disk t s))
    | None => Normal tt (log_call (AppendText p false) s)
    end.

(** [fs::directory_iterator(p)]: the entries of directory [p]; throws when
    [p] is not a directory. *)
Definition directory_iterator (p : fs_path) : M (list (fs_path * node)) :=
  fun s =>
    match lookup p (disk s) with
    | Some (Dir es) => Normal (map (fun e => (p // [fst e], snd e)) es) s
    | _ => Raised (filesystem_error "filesystem error: directory iterator cannot open directory") s
    end.

(** [fs::recursive_directory_iterator(p)] *)
Definition recursive_directory_iterator (p : fs_path)
  : M (list (fs_path * node)) :=
  fun s =>
    match lookup p (disk s) with
    | Some (Dir es) => Normal (walk p (Dir es)) s
    | _ => Raised (filesystem_error "filesystem error: recursive directory iterator cannot open directory") s
    end.

(* ----------------------------------------------------------------- *)
(** *** [calculate_md5] *)

Definition buffer_size : nat := 1024 * 16.

(** The read loop: one buffer per turn, until a read comes back short. *)
Fixpoint read_loop (fuel : nat) (md5Context : MD5.MD5_CTX) (file : list byte)
  : MD5.MD5_CTX :=
  match fuel with
  | O => md5Context
  | S fuel' =>
      let buffer := firstn buffer_size file in
      let md5Context' := MD5.MD5_Update md5Context buffer in
      if length buffer <? buffer_size then md5Context'
      else read_loop fuel' md5Context' (skipn buffer_size file)
  end.

Definition hex_digit (n : Z) : string :=
  match String.get (Z.to_nat n) "0123456789abcdef" with
  | Some c => String c EmptyString
  | None => EmptyString
  end.

(** [std::hex << std::setfill('0') << std::setw(2) << (int)c] *)
Definition hex2 (c : Z) : string :=
  (hex_digit (c / 16) ++ hex_digit (c mod 16))%string.

Definition digest_of (data : list byte) : string :=
  String.concat ""
    (map hex2 (MD5.MD5_Final (read_loop (S (length data)) MD5.MD5_Init data))).

Definition cannot_open (filepath : fs_path) : string :=
  ("无法打开文件: " ++ absolute_string filepath)%string.

(** The stream opens on a directory as on a regular file; on a directory
    every read fails, and the digest is that of no bytes. *)
Definition calculate_md5 (filepath : fs_path) : M string :=
  fun s =>
    match lookup filepath (disk s) with
    | Some n =>
        if unreadable env filepath
        then Raised (runtime_error (cannot_open filepath)) s
        else Normal (digest_of match n with
                               | File data _ => data
                               | Dir _ => []
                               end) s
    | None => Raised (runtime_error (cannot_open filepath)) s
    end.

(* ----------------------------------------------------------------- *)
(** *** [scan_directory] *)

Definition file_size (n : node) : nat :=
  match n with File data _ => length data | Dir _ => 0 end.

Definition last_write_time (n : node) : Z :=
  match n with File _ mtime => mtime | Dir _ => 0%Z end.

Definition scan_entry (files_info : list FileInfo) (entry : fs_path * node)
  : M (list FileInfo) :=
  if is_regular_file (snd entry) then
    try_catch
      (digest <- calculate_md5 (fst entry) ;;
       ret (files_info ++
            [mkFileInfo (fst entry) digest (file_size (snd entry))
                        (last_write_time (snd entry))]))
      (fun e =>
         cerr_line ("无法处理文件 " ++ quoted (absolute_string (fst entry))
                    ++ ": " ++ what e)%string ;;
         ret files_info)
  else ret files_info.

Definition scan_directory (dir_path : fs_path) : M (list FileInfo) :=
  entries <- recursive_directory_iterator dir_path ;;
  foldM scan_entry entries [].

(* ----------------------------------------------------------------- *)
(** *** [current_timestamp] *)

Definition two_digits (n : nat) : string :=
  if n <? 10 then ("0" ++ decimal n)%string else decimal n.

(** [std::put_time(&tm_buf, "%Y%m%d_%H%M%S")] *)
Definition put_time (t : tm) : string :=
  (decimal (tm_year t + 1900) ++ two_digits (tm_mon t + 1)
   ++ two_digits (tm_mday t) ++ "_" ++ two_digits (tm_hour t)
   ++ two_digits (tm_min t) ++ two_digits (tm_sec t))%string.

Definition current_timestamp : string := put_time (local_time env).

(* ----------------------------------------------------------------- *)
(** *** [create_backup] *)

Definition snapshot_dir (backup_dir : fs_path) (stamp : string) : fs_path :=
  backup_dir // [("backup_" ++ stamp)%string].

Definition history_file (backup_dir : fs_path) : fs_path :=
  backup_dir // ["backup_history.txt"].

(** One turn of the copy loop (the same in both kinds of backup); the value
    carried round the loop is [copied_files]. *)
Definition copy_step (source_dir current_backup_dir : fs_path)
    (copied_files : nat) (file_info : FileInfo) : M nat :=
  let relative_path := relative (path file_info) source_dir in
  let dest_path := current_backup_dir // relative_path in
  create_directories (parent_path dest_path) ;;
  try_catch
    (copy_file (path file_info) dest_path ;;
     ret (S copied_files))
    (fun e =>
       cerr_line ("无法复制文件 " ++ quoted (relative_string relative_path)
                  ++ ": " ++ what e)%string ;;
       ret copied_files).

Definition full_history_line (stamp : string) (source_dir : fs_path)
    (copied_files total : nat) : string :=
  (stamp ++ ": 备份自 " ++ quoted (absolute_string source_dir) ++ " (共 "
   ++ decimal copied_files ++ "/" ++ decimal total ++ " 文件)" ++ newline)%string.

Definition create_backup (source_dir backup_dir : fs_path) : M bool :=
  present <- fs_exists source_dir ;;
  if negb present then
    cerr_line "错误：源目录不存在!" ;;
    ret false
  else
    let timestamp := current_timestamp in
    let current_backup_dir := snapshot_dir backup_dir timestamp in
    create_directories current_backup_dir ;;
    cout_line ("正在扫描源目录: " ++ quoted (absolute_string source_dir))%string ;;
    source_files <- scan_directory source_dir ;;
    cout_line "正在复制文件..." ;;
    copied_files <- foldM (copy_step source_dir current_backup_dir) source_files 0 ;;
    push_back_history
      (mkBackupInfo timestamp current_backup_dir (length source_files)
                    copied_files source_dir false "") ;;
    append_text (history_file backup_dir)
      (full_history_line timestamp source_dir copied_files (length source_files)) ;;
    cout_line (newline ++ "备份完成! 保存到: "
               ++ quoted (absolute_string current_backup_dir))%string ;;
    cout_line ("共处理 " ++ decimal copied_files ++ "/"
               ++ decimal (length source_files) ++ " 个文件")%string ;;
    ret true.

(* ----------------------------------------------------------------- *)
(** *** [incremental_backup] *)

(** [entry.is_directory() && entry.path().filename().string().find("backup_") == 0] *)
Definition is_backup_entry (entry : fs_path * node) : bool :=
  is_directory (snd entry) && String.prefix "backup_" (filename (fst entry)).

(** The predicate handed to [std::find_if]: the path of the snapshot's file
    relative to the parent of its parent. *)
Definition same_relative (relative_path : fs_path) (info : FileInfo) : bool :=
  path_eqb (relative (path info) (parent_path (parent_path (path info))))
           relative_path.

(** The test that sends a source file to [files_to_backup]. *)
Definition new_or_modified (source_dir : fs_path) (backup_files : list FileInfo)
    (source_file : FileInfo) : bool :=
  let relative_path := relative (path source_file) source_dir in
  match find (same_relative relative_path) backup_files with
  | None => true
  | Some it => negb (String.eqb (md5 source_file) (md5 it))
  end.

Definition files_to_backup_of (source_dir : fs_path)
    (source_files backup_files : list FileInfo) : list FileInfo :=
  filter (new_or_modified source_dir backup_files) source_files.

(** The flag [need_copy] of the second loop. *)
Definition need_copy (source_dir : fs_path) (source_files : list FileInfo)
    (relative_path : fs_path) (backup_file : FileInfo) : bool :=
  negb (existsb
          (fun source_file =>
             path_eqb (relative (path source_file) source_dir) relative_path
             && String.eqb (md5 source_file) (md5 backup_file))
          source_files).

(** One turn of the loop over the files of the latest snapshot. *)
Definition link_step (source_dir latest_backup current_backup_dir : fs_path)
    (source_files : list FileInfo) (_ : unit) (backup_file : FileInfo) : M unit :=
  let relative_path := relative (path backup_file) latest_backup in
  let dest_path := current_backup_dir // relative_path in
  if need_copy source_dir source_files relative_path backup_file then
    create_directories (parent_path dest_path) ;;
    try_catch
      (create_hard_link (path backup_file) dest_path)
      (fun _ =>
         try_catch
           (copy_file (path backup_file) dest_path)
           (fun e =>
              cerr_line ("无法复制文件 " ++ quoted (relative_string relative_path)
                         ++ ": " ++ what e)%string))
  else ret tt.

Definition incremental_history_line (stamp : string) (source_dir : fs_path)
    (copied_files changed : nat) : string :=
  (stamp ++ ": 增量备份自 " ++ quoted (absolute_string source_dir) ++ " (共 "
   ++ decimal copied_files ++ "/" ++ decimal changed ++ " 变更文件)"
   ++ newline)%string.

Definition incremental_backup (source_dir backup_dir : fs_path) : M bool :=
  present <- fs_exists source_dir ;;
  if negb present then
    cerr_line "错误：源目录不存在!" ;;
    ret false
  else
    entries <- directory_iterator backup_dir ;;
    let backups := map fst (filter is_backup_entry entries) in
    match backups with
    | [] =>
        cout_line "没有找到之前的备份，将执行完整备份" ;;
        create_backup source_dir backup_dir
    | _ :: _ =>
        let latest_backup := last (sort_paths backups) [] in
        cout_line ("找到最新备份: " ++ quoted (absolute_string latest_backup))%string ;;
        cout_line "正在扫描文件变更..." ;;
        source_files <- scan_directory source_dir ;;
        backup_files <- scan_directory latest_backup ;;
        let files_to_backup :=
          files_to_backup_of source_dir source_files backup_files in
        match files_to_backup with
        | [] =>
            cout_line "没有发现需要备份的文件变更!" ;;
            ret false
        | _ :: _ =>
            let timestamp := current_timestamp in
            let current_backup_dir := snapshot_dir backup_dir timestamp in
            create_directories current_backup_dir ;;
            cout_line ("正在备份 " ++ decimal (length files_to_backup)
                       ++ " 个变更文件...")%string ;;
            copied_files <-
              foldM (copy_step source_dir current_backup_dir) files_to_backup 0 ;;
            cout_line "处理未修改的文件..." ;;
            foldM (link_step source_dir latest_backup current_backup_dir
                             source_files) backup_files tt ;;
            push_back_history
              (mkBackupInfo timestamp current_backup_dir (length source_files)
                            copied_files source_dir true
                            (filename latest_backup)) ;;
            append_text (history_file backup_dir)
              (incremental_history_line timestamp source_dir copied_files
                                        (length files_to_backup)) ;;
            cout_line (newline ++ "增量备份完成! 保存到: "
                       ++ quoted (absolute_string current_backup_dir))%string ;;
            cout_line ("共处理 " ++ decimal copied_files ++ " 个变更文件")%string ;;
            ret true
        end
    end.

(** The two entries of the menu that make a backup. *)
Definition run_backup (incremental : bool) (source_dir backup_dir : fs_path)
  : M bool :=
  if incremental then incremental_backup source_dir backup_dir
  else create_backup source_dir backup_dir.

Definition no_earlier_backup : string := "没有找到之前的备份，将执行完整备份".
Definition no_changes : string := "没有发现需要备份的文件变更!".

(* ----------------------------------------------------------------- *)
(** *** Names for what a run leaves *)

(** The record a full backup appends. *)
Definition full_record (source_dir backup_dir : fs_path) (total copied : nat)
  : BackupInfo :=
  mkBackupInfo current_timestamp (snapshot_dir backup_dir current_timestamp)
               total copied source_dir false "".

(** The record an incremental backup appends. *)
Definition incremental_record (source_dir backup_dir latest_backup : fs_path)
    (total copied : nat) : BackupInfo :=
  mkBackupInfo current_timestamp (snapshot_dir backup_dir current_timestamp)
               total copied source_dir true (filename latest_backup).

(** The disk after [append_text], whether the stream was good or not. *)
Definition append_result (p : fs_path) (text : string) (t : node) : node :=
  match append_text_disk p text t with Some t' => t' | None => t end.

(** The directories the second step of [incremental_backup] keeps, and the
    one it takes for the latest. *)
Definition backups_of (entries : list (fs_path * node)) : list fs_path :=
  map fst (filter is_backup_entry entries).

Definition latest_of (entries : list (fs_path * node)) : fs_path :=
  last (sort_paths (backups_of entries)) [].

(** The disk a sequence of logged calls leads to: each call that went
    through did to the disk what its function does, each call that failed
    left the disk as it was. *)
Inductive evolves : node -> list call -> node -> Prop :=
  | evolves_done t :
      evolves t [] t
  | evolves_create_directories p t t1 cs t' :
      mkdirs p t = Some t1 -> evolves t1 cs t' ->
      evolves t (CreateDirectories p true :: cs) t'
  | evolves_copy from to t t1 cs t' :
      copy_file_disk from to t = Some t1 -> evolves t1 cs t' ->
      evolves t (CopyFile from to true :: cs) t'
  | evolves_copy_failed from to t cs t' :
      copy_file_disk from to t = None -> evolves t cs t' ->
      evolves t (CopyFile from to false :: cs) t'
  | evolves_link from to t t1 cs t' :
      create_hard_link_disk from to t = Some t1 -> evolves t1 cs t' ->
      evolves t (CreateHardLink from to true :: cs) t'
  | evolves_link_failed from to t cs t' :
      create_hard_link_disk from to t = None -> evolves t cs t' ->
      evolves t (CreateHardLink from to false :: cs) t'.

(** The calls the first loop may make, for the files it runs over. *)
Definition copy_loop_call (source_dir current_backup_dir : fs_path)
    (files : list FileInfo) (c : call) : Prop :=
  match c with
  | CreateDirectories _ _ => True
  | CopyFile from to _ =>
      exists file_info,
        In file_info files /\ from = path file_info
        /\ to = current_backup_dir // relative (path file_info) source_dir
  | _ => False
  end.

(** The calls the second loop may make. *)
Definition link_loop_call (latest_backup current_backup_dir : fs_path)
    (backup_files : list FileInfo) (c : call) : Prop :=
  match c with
  | CreateDirectories _ _ => True
  | CopyFile from to _ | CreateHardLink from to _ =>
      exists backup_file,
        In backup_file backup_files /\ from = path backup_file
        /\ to = current_backup_dir // relative (path backup_file) latest_backup
  | _ => False
  end.

End BackupApp.

(* ================================================================= *)
(** ** What a run leaves behind: observations on the state *)

Definition is_prefix (p q : fs_path) : bool := path_eqb p (firstn (length p) q).

(** A [copy_file] that went through. *)
Definition is_copy (c : call) : bool :=
  match c with CopyFile _ _ true => true | _ => false end.

(** A [copy_file] that went through and read a file below [root]. *)
Definition is_copy_from (root : fs_path) (c : call) : bool :=
  match c with CopyFile from _ true => is_prefix root from | _ => false end.

(** A [create_hard_link] that was tried, whatever came of it. *)
Definition is_link_attempt (c : call) : bool :=
  match c with CreateHardLink _ _ _ => true | _ => false end.

(** A call, of any kind and outcome, that writes at [p]. *)
Definition writes_at (p : fs_path) (c : call) : bool :=
  match c with
  | CopyFile _ to _ => path_eqb to p
  | CreateHardLink _ to _ => path_eqb to p
  | _ => false
  end.

(** The bytes of the regular file at [p], if there is one. *)
Definition file_data (p : fs_path) (t : node) : option (list byte) :=
  match lookup p t with
  | Some (File data _) => Some data
  | _ => None
  end.

(** The calls a run added to those made before it. *)
Definition new_calls (before after : State) : list call :=
  skipn (length (calls before)) (calls after).

(** The regular files among the entries of a walk. *)
Definition regular (l : list (fs_path * node)) : list (fs_path * node) :=
  filter (fun e => is_regular_file (snd e)) l.

(** Neither path lies at or below the other. *)
Definition separate (p q : fs_path) : Prop :=
  is_prefix p q = false /\ is_prefix q p = false.

(** What [mkdirs] may turn a node into: a file stays as it is, a directory
    stays a directory with the same regular files below it. *)
Definition same_files (n n' : node) : Prop :=
  match n with
  | File _ _ => n' = n
  | Dir _ => is_directory n' = true /\ regular (walk [] n') = regular (walk [] n)
  end.


(** Following the words of the specification, not the code: a snapshot
    directory is named [backup_<timestamp>], the timestamp being
    [YYYYMMDD_HHMMSS], eight digits, an underscore, six digits. *)
Definition is_digit (c : ascii) : bool :=
  (48 <=? nat_of_ascii c) && (nat_of_ascii c <=? 57).

Definition all_digits (s : string) : bool :=
  forallb is_digit (list_ascii_of_string s).

Definition spec_timestamp (s : string) : bool :=
  (String.length s =? 15) && all_digits (substring 0 8 s)
  && String.eqb (substring 8 1 s) "_" && all_digits (substring 9 6 s).

Definition spec_snapshot_name (name : string) : bool :=
  String.prefix "backup_" name
  && spec_timestamp (substring 7 (String.length name - 7) name).

(* ================================================================= *)
(** ** Worked runs *)

Module Runs.

Definition bytes (s : string) : list byte := list_byte_of_string s.

(** Tuesday 2 January 2024, 03:04:05; nothing is refused. *)
Definition quiet : Env :=
  mkEnv (mkTm 124 0 2 3 4 5) 1000
        (fun _ => false) (fun _ _ => false) (fun _ _ => false).

(** The same, on a system where no hard link can be made. *)
Definition no_links : Env :=
  mkEnv (mkTm 124 0 2 3 4 5) 1000
        (fun _ => false) (fun _ _ => false) (fun _ _ => true).

Definition fresh (t : node) : State := mkState t [] [] [] [].

Definition src : fs_path := ["home"; "docs"].
Definition bak : fs_path := ["mnt"; "bak"].
Definition old_snapshot : string := "backup_20240101_000000".
Definition new_snapshot : string := "backup_20240102_030405".
Definition prior : fs_path := bak // [old_snapshot].
Definition snapshot : fs_path := bak // [new_snapshot].

Definition tree (source : list (string * node))
    (backup_root : list (string * node)) : node :=
  Dir [("home", Dir [("docs", Dir source)]); ("mnt", Dir [("bak", Dir backup_root)])].

(** [a.txt] is as it was at the last backup, [b.txt] is new; both lie
    directly in the source directory. *)
Definition top_level : node :=
  tree [("a.txt", File (bytes "alpha") 10); ("b.txt", File (bytes "beta") 20)]
       [(old_snapshot, Dir [("a.txt", File (bytes "alpha") 15)])].

(** [d/a.txt] is as it was at the last backup, [d/b.txt] was rewritten. *)
Definition one_deep : node :=
  tree [("d", Dir [("a.txt", File (bytes "alpha") 10);
                   ("b.txt", File (bytes "beta, revised") 20)])]
       [(old_snapshot, Dir [("d", Dir [("a.txt", File (bytes "alpha") 15);
                                       ("b.txt", File (bytes "beta") 15)])])].

(** Nothing changed since the last backup. *)
Definition untouched : node :=
  tree [("d", Dir [("a.txt", File (bytes "alpha") 10)])]
       [(old_snapshot, Dir [("d", Dir [("a.txt", File (bytes "alpha") 15)])])].

(** [d/f] was rewritten; the snapshot also holds [archive/d/f], listed
    first, whose bytes happen to be the new bytes of [d/f]. *)
Definition namesake : node :=
  tree [("d", Dir [("f", File (bytes "second draft") 20)])]
       [(old_snapshot,
         Dir [("archive", Dir [("d", Dir [("f", File (bytes "second draft") 15)])]);
              ("d", Dir [("f", File (bytes "first draft") 15)])])].

(** Where the latest snapshot has the directory [d], the source now has a
    regular file [d]. *)
Definition replaced : node :=
  tree [("d", File (bytes "now a file") 20)]
       [(old_snapshot, Dir [("d", Dir [("x", File (bytes "old") 15)])])].

(** The backup root holds one directory, which is not named after a time. *)
Definition renamed : node :=
  tree [("a.txt", File (bytes "alpha") 10)]
       [("backup_old", Dir [])].

(** The source directory holds no file, the backup root nothing at all. *)
Definition empty_source : node := tree [("sub", Dir [])] [].


(** The [FileInfo] a scan makes of a file with this content. *)
Definition info (p : fs_path) (content : string) (mtime : Z) : FileInfo :=
  mkFileInfo p (digest_of (bytes content)) (String.length content) mtime.

End Runs.

(* ================================================================= *)
(** ** Lemmas on paths *)

Lemma path_eqb_eq (p q : fs_path) : path_eqb p q = true <-> p = q.
Proof.
  unfold path_eqb. destruct (list_eq_dec string_dec p q); split; intro H;
    try reflexivity; try assumption; try discriminate; contradiction.
Qed.

Lemma path_eqb_refl (p : fs_path) : path_eqb p p = true.
Proof. apply path_eqb_eq. reflexivity. Qed.

Lemma path_eqb_neq (p q : fs_path) : path_eqb p q = false <-> p <> q.
Proof.
  unfold path_eqb. destruct (list_eq_dec string_dec p q); split; intro H;
    try reflexivity; try assumption; try discriminate; contradiction.
Qed.

Lemma is_prefix_app (p r : fs_path) : is_prefix p (p ++ r) = true.
Proof.
  unfold is_prefix. apply path_eqb_eq.
  rewrite firstn_app, Nat.sub_diag, firstn_all. simpl. now rewrite app_nil_r.
Qed.

Lemma is_prefix_inv (p q : fs_path) :
  is_prefix p q = true -> exists r, q = p ++ r.
Proof.
  unfold is_prefix. intro H. apply path_eqb_eq in H.
  exists (skipn (length p) q). rewrite H at 1. symmetry. apply firstn_skipn.
Qed.

Lemma strip_common_app (p r : fs_path) : strip_common (p ++ r) p = (r, []).
Proof.
  induction p as [| c p IH]; simpl.
  - destruct r; reflexivity.
  - rewrite String.eqb_refl. exact IH.
Qed.

(** Below its base, a path is relative by what follows the base. *)
Lemma relative_below (p r : fs_path) : r <> [] -> relative (p ++ r) p = r.
Proof.
  intro Hr. unfold relative. rewrite strip_common_app. simpl.
  destruct r; [contradiction | reflexivity].
Qed.

(* ================================================================= *)
(** ** Lemmas on the file system *)

(** Induction on a node, with the hypothesis on every entry of a directory. *)
Lemma node_induction (P : node -> Prop) :
  (forall data mtime, P (File data mtime)) ->
  (forall es, Forall (fun e => P (snd e)) es -> P (Dir es)) ->
  forall n, P n.
Proof.
  intros HF HD. fix IH 1. intros [data mtime | es].
  - apply HF.
  - apply HD. induction es as [| [c n] r IHr]; constructor.
    + simpl. apply IH.
    + exact IHr.
Qed.

Lemma assoc_put_same c n es : assoc c (put c n es) = Some n.
Proof.
  induction es as [| [d m] r IH]; simpl.
  - now rewrite String.eqb_refl.
  - destruct (String.eqb c d) eqn:E; simpl; rewrite E; [reflexivity | exact IH].
Qed.

Lemma assoc_put_other c d n es : c <> d -> assoc d (put c n es) = assoc d es.
Proof.
  intro Hcd. induction es as [| [e m] r IH]; simpl.
  - destruct (String.eqb d c) eqn:E; [| reflexivity].
    apply String.eqb_eq in E. congruence.
  - destruct (String.eqb c e) eqn:E; simpl.
    + apply String.eqb_eq in E. subst e.
      destruct (String.eqb d c) eqn:E'; [| reflexivity].
      apply String.eqb_eq in E'. congruence.
    + destruct (String.eqb d e); [reflexivity | exact IH].
Qed.

(** What [walk] does in a directory, entry by entry. *)
Lemma walk_dir p es :
  walk p (Dir es)
  = flat_map (fun e => (p // [fst e], snd e) :: walk (p // [fst e]) (snd e)) es.
Proof.
  simpl. induction es as [| [c n] r IH]; [reflexivity |].
  simpl. now rewrite IH.
Qed.

(** A walk from [p] is the walk from the root, with [p] before each path. *)
Lemma walk_shift n : forall p,
  walk p n = map (fun e => (p ++ fst e, snd e)) (walk [] n).
Proof.
  induction n as [data mtime | es IH] using node_induction; intro p.
  - reflexivity.
  - rewrite !walk_dir. induction IH as [| [c n] r Hn _ IHr]; [reflexivity |].
    simpl in *. rewrite map_app, IHr. f_equal. f_equal.
    rewrite (Hn (p // [c])), (Hn [c]), map_map. unfold path_append.
    apply map_ext. intros [q m]. simpl. now rewrite <- app_assoc.
Qed.

(** Every path of a walk lies strictly below its start. *)
Lemma walk_below n : forall p q m,
  In (q, m) (walk p n) -> exists r, r <> [] /\ q = p ++ r.
Proof.
  induction n as [data mtime | es IH] using node_induction; intros p q m Hin.
  - contradiction.
  - rewrite walk_dir in Hin. apply in_flat_map in Hin.
    destruct Hin as [[c n] [Hc Hin]]. simpl in Hin.
    rewrite Forall_forall in IH. destruct Hin as [Heq | Hin].
    + inversion Heq; subst. exists [c]. split; [discriminate | reflexivity].
    + apply (IH _ Hc) in Hin. destruct Hin as [r [Hr Hq]]. subst q.
      exists (c :: r). split; [discriminate |].
      unfold path_append. now rewrite <- app_assoc.
Qed.

Lemma is_prefix_nil (q : fs_path) : is_prefix [] q = true.
Proof. reflexivity. Qed.

Lemma is_prefix_cons (c d : string) (p q : fs_path) :
  is_prefix (c :: p) (d :: q) = (String.eqb c d && is_prefix p q)%bool.
Proof.
  unfold is_prefix. simpl.
  destruct (String.eqb c d) eqn:E; simpl.
  - apply String.eqb_eq in E. subst d.
    destruct (path_eqb p (firstn (length p) q)) eqn:E'.
    + apply path_eqb_eq in E'. apply path_eqb_eq. now f_equal.
    + apply path_eqb_neq in E'. apply path_eqb_neq. congruence.
  - apply String.eqb_neq in E. apply path_eqb_neq. congruence.
Qed.

Lemma is_prefix_cons_nil (c : string) (p : fs_path) : is_prefix (c :: p) [] = false.
Proof. reflexivity. Qed.

Lemma lookup_file_inv q data mtime n :
  lookup q (File data mtime) = Some n -> q = [] /\ n = File data mtime.
Proof.
  destruct q; simpl; intro H; [inversion H; auto | discriminate].
Qed.





(** A regular file stays what it is when a node is put elsewhere, at a place
    that held no directory. *)
Lemma set_node_keeps_file p : forall q n t t' data mtime,
  set_node p n t = Some t' ->
  lookup q t = Some (File data mtime) ->
  q <> p ->
  (forall es, lookup p t <> Some (Dir es)) ->
  lookup q t' = Some (File data mtime).
Proof.
  induction p as [| c p IH]; intros q n t t' data mtime H Hq Hne Hnd;
    simpl in H; [discriminate |].
  destruct t as [| es]; [discriminate |].
  destruct q as [| d q]; [discriminate |].
  destruct (string_dec c d) as [-> | Hcd].
  - simpl in Hq. destruct (assoc d es) as [m |] eqn:Em; [| discriminate].
    destruct p as [| c' p'].
    + exfalso. simpl in Hnd. rewrite Em in Hnd.
      destruct m as [data' mtime' | es'].
      * apply lookup_file_inv in Hq. destruct Hq as [-> _]. now apply Hne.
      * now apply (Hnd es').
    + destruct (set_node (c' :: p') n m) as [m' |] eqn:E; [| discriminate].
      inversion H; subst. simpl. rewrite assoc_put_same.
      apply (IH q n m m' data mtime E Hq).
      * congruence.
      * intros es' Hl. apply (Hnd es'). simpl. now rewrite Em.
  - assert (Ht : exists m', t' = Dir (put c m' es)).
    { destruct p as [| c' p'].
      - inversion H. now exists n.
      - destruct (assoc c es) as [m |]; [| discriminate].
        destruct (set_node (c' :: p') n m) as [m' |]; [| discriminate].
        inversion H. now exists m'. }
    destruct Ht as [m' ->]. simpl in *. now rewrite assoc_put_other.
Qed.


Lemma regular_app l l' : regular (l ++ l') = regular l ++ regular l'.
Proof. apply filter_app. Qed.

Lemma regular_shift p l :
  regular (map (fun e => (p ++ fst e, snd e)) l)
  = map (fun e => (p ++ fst e, snd e)) (regular l).
Proof.
  induction l as [| [q n] l IH]; [reflexivity |].
  unfold regular in *. simpl. destruct (is_regular_file n); simpl; now rewrite IH.
Qed.

Lemma regular_walk_shift p n n' :
  regular (walk [] n') = regular (walk [] n) ->
  regular (walk p n') = regular (walk p n).
Proof.
  intro H. rewrite (walk_shift n'), (walk_shift n), !regular_shift. now rewrite H.
Qed.

Lemma put_absent c n es : assoc c es = None -> put c n es = es ++ [(c, n)].
Proof.
  induction es as [| [d m] r IH]; simpl; [reflexivity |].
  destruct (String.eqb c d); [discriminate |]. intro H. now rewrite IH.
Qed.

Lemma fresh_dirs_is_directory q : is_directory (fresh_dirs q) = true.
Proof. destruct q; reflexivity. Qed.

Lemma is_directory_not_regular n : is_directory n = true -> is_regular_file n = false.
Proof. destruct n; [discriminate | reflexivity]. Qed.

Lemma walk_fresh_dirs q : forall p, regular (walk p (fresh_dirs q)) = [].
Proof.
  induction q as [| c q IH]; intro p; [reflexivity |].
  simpl. unfold regular in *. simpl.
  rewrite (is_directory_not_regular _ (fresh_dirs_is_directory q)).
  rewrite app_nil_r. apply IH.
Qed.

Lemma regular_cons_directory q n l :
  is_directory n = true -> regular ((q, n) :: l) = regular l.
Proof.
  intro H. unfold regular. simpl. now rewrite (is_directory_not_regular _ H).
Qed.

Lemma regular_cons_any e l : regular (e :: l) = regular [e] ++ regular l.
Proof. apply (regular_app [e] l). Qed.

(** Replacing a directory by one with the same regular files changes nothing
    in the regular files of the directory above. *)
Lemma regular_walk_put p c n n' es :
  assoc c es = Some n ->
  is_directory n = true -> is_directory n' = true ->
  regular (walk [] n') = regular (walk [] n) ->
  regular (walk p (Dir (put c n' es))) = regular (walk p (Dir es)).
Proof.
  intros Ha Hn Hn' Hreg. rewrite !walk_dir.
  induction es as [| [d m] r IH]; [discriminate |].
  cbn [assoc] in Ha. cbn [put]. destruct (String.eqb c d) eqn:E.
  - inversion Ha; subst m. cbn [flat_map fst snd app].
    rewrite (regular_cons_directory _ _ _ Hn), (regular_cons_directory _ _ _ Hn').
    rewrite !regular_app. f_equal. now apply regular_walk_shift.
  - cbn [flat_map fst snd app].
    rewrite (regular_cons_any (p // [d], m) (_ ++ flat_map _ (put c n' r))).
    rewrite (regular_cons_any (p // [d], m) (_ ++ flat_map _ r)).
    rewrite !regular_app, (IH Ha). reflexivity.
Qed.

Lemma regular_walk_put_fresh p c q es :
  assoc c es = None ->
  regular (walk p (Dir (put c (fresh_dirs q) es))) = regular (walk p (Dir es)).
Proof.
  intro Ha. rewrite (put_absent _ _ _ Ha), !walk_dir, flat_map_app, regular_app.
  cbn [flat_map fst snd app]. rewrite app_nil_r.
  rewrite (regular_cons_directory _ _ _ (fresh_dirs_is_directory q)).
  now rewrite walk_fresh_dirs, app_nil_r.
Qed.

Lemma same_files_refl n : same_files n n.
Proof. destruct n; simpl; auto. Qed.

Lemma mkdirs_directory p t t' :
  mkdirs p t = Some t' -> is_directory t = true /\ is_directory t' = true.
Proof.
  destruct t as [| es]; [destruct p; discriminate |].
  destruct p as [| c p]; simpl; intro H.
  - inversion H. auto.
  - destruct (assoc c es) as [n |].
    + destruct (mkdirs p n); [| discriminate]. inversion H. auto.
    + inversion H. auto.
Qed.

(** [mkdirs] keeps every node there was: a file as it is, a directory with
    the regular files it had. *)
Lemma mkdirs_same_files p : forall t t' q n,
  mkdirs p t = Some t' ->
  lookup q t = Some n ->
  exists n', lookup q t' = Some n' /\ same_files n n'.
Proof.
  induction p as [| c p IH]; intros t t' q n H Hq.
  - destruct t; simpl in H; [discriminate |]. inversion H; subst.
    exists n. split; [assumption | apply same_files_refl].
  - destruct t as [| es]; simpl in H; [discriminate |].
    destruct (assoc c es) as [m |] eqn:Em.
    + destruct (mkdirs p m) as [m' |] eqn:Emk; [| discriminate].
      inversion H; subst t'; clear H.
      destruct (mkdirs_directory _ _ _ Emk) as [Hm Hm'].
      destruct q as [| d q].
      * simpl in Hq. inversion Hq; subst n. eexists. split; [reflexivity |].
        split; [reflexivity |].
        destruct (IH m m' [] m Emk eq_refl) as [x [Hx Hsame]].
        simpl in Hx. inversion Hx; subst x.
        destruct m as [| esm]; [discriminate |]. destruct Hsame as [_ Hreg].
        now apply regular_walk_put with (n := Dir esm).
      * simpl in Hq |- *. destruct (string_dec c d) as [-> | Hcd].
        -- rewrite assoc_put_same. rewrite Em in Hq. now apply (IH m m' q n).
        -- rewrite (assoc_put_other _ _ _ _ Hcd).
           destruct (assoc d es) as [x |]; [| discriminate].
           exists n. split; [assumption | apply same_files_refl].
    + inversion H; subst t'; clear H. destruct q as [| d q].
      * simpl in Hq. inversion Hq; subst n. eexists. split; [reflexivity |].
        split; [reflexivity |]. now apply regular_walk_put_fresh.
      * simpl in Hq |- *. destruct (string_dec c d) as [-> | Hcd].
        -- rewrite Em in Hq. discriminate.
        -- rewrite (assoc_put_other _ _ _ _ Hcd).
           destruct (assoc d es) as [x |]; [| discriminate].
           exists n. split; [assumption | apply same_files_refl].
Qed.

Lemma mkdirs_keeps_file p t t' q data mtime :
  mkdirs p t = Some t' ->
  lookup q t = Some (File data mtime) ->
  lookup q t' = Some (File data mtime).
Proof.
  intros H Hq. destruct (mkdirs_same_files _ _ _ _ _ H Hq) as [n' [Hn' Hs]].
  simpl in Hs. now subst n'.
Qed.

Lemma lookup_fresh_dirs p : lookup p (fresh_dirs p) = Some (Dir []).
Proof.
  induction p as [| c p IH]; [reflexivity |].
  simpl. now rewrite String.eqb_refl.
Qed.

(** After [mkdirs], the path is a directory. *)
Lemma mkdirs_makes_directory p : forall t t',
  mkdirs p t = Some t' -> exists es, lookup p t' = Some (Dir es).
Proof.
  induction p as [| c p IH]; intros t t' H.
  - destruct t as [| es]; simpl in H; [discriminate |]. inversion H. now exists es.
  - destruct t as [| es]; simpl in H; [discriminate |].
    destruct (assoc c es) as [m |] eqn:Em.
    + destruct (mkdirs p m) as [m' |] eqn:Emk; [| discriminate].
      inversion H; subst t'. simpl. rewrite assoc_put_same. now apply (IH m).
    + inversion H; subst t'. simpl. rewrite assoc_put_same.
      exists []. apply lookup_fresh_dirs.
Qed.



(* ================================================================= *)
(** ** The digest *)

Example digest_of_nothing :
  digest_of [] = "d41d8cd98f00b204e9800998ecf8427e".
Proof. vm_compute. reflexivity. Qed.

Example digest_of_abc :
  digest_of (list_byte_of_string "abc") = "900150983cd24fb0d6963f7d28e17f72".
Proof. vm_compute. reflexivity. Qed.

Example digest_of_two_blocks :
  digest_of (repeat "x"%byte 100) = "aed563ecafb4bcc5654c597a421547b2".
Proof. vm_compute. reflexivity. Qed.

Lemma buffer_size_positive : 0 < buffer_size.
Proof. unfold buffer_size. apply Nat.mul_pos_pos; lia. Qed.

(** The read loop ends on its own: once the turns allowed cover the file,
    one turn more changes nothing. *)
Lemma read_loop_ends fuel : forall md5Context file,
  length file < fuel * buffer_size ->
  read_loop (S fuel) md5Context file = read_loop fuel md5Context file.
Proof.
  induction fuel as [| fuel IH]; intros md5Context file H; [simpl in H; lia |].
  change (read_loop (S (S fuel)) md5Context file)
    with (let buffer := firstn buffer_size file in
          let md5Context' := MD5.MD5_Update md5Context buffer in
          if length buffer <? buffer_size then md5Context'
          else read_loop (S fuel) md5Context' (skipn buffer_size file)).
  change (read_loop (S fuel) md5Context file)
    with (let buffer := firstn buffer_size file in
          let md5Context' := MD5.MD5_Update md5Context buffer in
          if length buffer <? buffer_size then md5Context'
          else read_loop fuel md5Context' (skipn buffer_size file)).
  cbv zeta. destruct (Nat.ltb_spec (length (firstn buffer_size file)) buffer_size) as [Hlt | Hge];
    [reflexivity |].
  apply IH. rewrite length_skipn. rewrite length_firstn in Hge.
  change (S fuel * buffer_size) with (buffer_size + fuel * buffer_size) in H.
  pose proof buffer_size_positive. lia.
Qed.

(** The turns [digest_of] allows are enough, whatever the file. *)
Lemma read_loop_enough data extra :
  read_loop (S (length data) + extra) MD5.MD5_Init data
  = read_loop (S (length data)) MD5.MD5_Init data.
Proof.
  induction extra as [| extra IH]; [now rewrite Nat.add_0_r |].
  rewrite Nat.add_succ_r, read_loop_ends; [exact IH |].
  pose proof buffer_size_positive. nia.
Qed.

(* ================================================================= *)
(** ** Lemmas on computations *)

Lemma bind_normal {A B} (m : M A) (k : A -> M B) s b s' :
  bind m k s = Normal b s' ->
  exists a s1, m s = Normal a s1 /\ k a s1 = Normal b s'.
Proof.
  unfold bind. destruct (m s) as [a s1 | e s1]; [eauto | discriminate].
Qed.

Lemma foldM_cons {A B} (body : B -> A -> M B) a l b s :
  foldM body (a :: l) b s
  = match body b a s with
    | Normal b' s' => foldM body l b' s'
    | Raised e s' => Raised e s'
    end.
Proof. reflexivity. Qed.

(** The rule of the loop invariant, for a loop that ends without a throw. *)
Lemma foldM_invariant {A B} (body : B -> A -> M B) (P : B -> State -> Prop) l :
  (forall a b s b' s', In a l -> P b s -> body b a s = Normal b' s' -> P b' s') ->
  forall b s b' s', P b s -> foldM body l b s = Normal b' s' -> P b' s'.
Proof.
  induction l as [| a l IH]; intros Hstep b s b' s' HP H.
  - inversion H; now subst.
  - rewrite foldM_cons in H. destruct (body b a s) as [b1 s1 | e s1] eqn:E;
      [| discriminate].
    apply (IH (fun a0 b0 s0 b0' s0' Hin => Hstep a0 b0 s0 b0' s0' (or_intror Hin))
              b1 s1 b' s'); [| assumption].
    apply (Hstep a b s b1 s1); [now left | assumption | assumption].
Qed.

Lemma add_cerr_nil s : add_cerr [] s = s.
Proof. destruct s. unfold add_cerr. simpl. now rewrite app_nil_r. Qed.

Lemma add_cerr_add_cerr l l' s : add_cerr l' (add_cerr l s) = add_cerr (l ++ l') s.
Proof. unfold add_cerr. simpl. now rewrite app_assoc. Qed.

Section Steps.

Variable env : Env.

(* ----------------------------------------------------------------- *)
(** *** Scanning: no throw past the iterator, no change but on [std::cerr],
        and a result that hangs on the disk only *)

Lemma scan_entry_total files_info entry t :
  exists files_info' lines,
    (files_info' = files_info
     \/ exists info, files_info' = files_info ++ [info] /\ path info = fst entry)
    /\ forall s, disk s = t ->
         scan_entry env files_info entry s = Normal files_info' (add_cerr lines s).
Proof.
  unfold scan_entry. destruct (is_regular_file (snd entry)).
  - unfold try_catch, bind, calculate_md5, ret, cerr_line.
    destruct (lookup (fst entry) t) as [n |] eqn:E.
    + destruct (unreadable env (fst entry)) eqn:U.
      * eexists files_info, [_]. split; [now left |]. intros s <-.
        rewrite E. reflexivity.
      * exists (files_info ++
                  [mkFileInfo (fst entry)
                              (digest_of match n with
                                         | File data _ => data
                                         | Dir _ => []
                                         end)
                              (file_size (snd entry))
                              (last_write_time (snd entry))]), [].
        split; [right; eexists; split; reflexivity |].
        intros s <-. rewrite E, add_cerr_nil. reflexivity.
    + eexists files_info, [_]. split; [now left |]. intros s <-.
      rewrite E. reflexivity.
  - exists files_info, []. split; [now left |]. intros s _.
    now rewrite add_cerr_nil.
Qed.

Lemma scan_entries_total entries t : forall files_info,
  exists files_info' lines,
    (forall info, In info files_info' ->
       In info files_info \/ In (path info) (map fst entries))
    /\ forall s, disk s = t ->
         foldM (scan_entry env) entries files_info s
         = Normal files_info' (add_cerr lines s).
Proof.
  induction entries as [| entry entries IH]; intro files_info.
  - exists files_info, []. split; [auto |]. intros s _. simpl.
    now rewrite add_cerr_nil.
  - destruct (scan_entry_total files_info entry t) as [acc [l1 [Hacc H1]]].
    destruct (IH acc) as [acc' [l2 [Hacc' H2]]].
    exists acc', (l1 ++ l2). split.
    + intros info Hin. destruct (Hacc' info Hin) as [Hin' | Hin'].
      * destruct Hacc as [-> | [info' [-> Hp]]]; [now left |].
        apply in_app_or in Hin'. destruct Hin' as [Hin' | [<- | []]];
          [now left | right; left; now symmetry].
      * right. now right.
    + intros s Hs. rewrite foldM_cons, (H1 s Hs), (H2 (add_cerr l1 s) Hs).
      now rewrite add_cerr_add_cerr.
Qed.

(** On a directory the scan returns, and its files lie strictly below. *)
Lemma scan_directory_total dir_path t es :
  lookup dir_path t = Some (Dir es) ->
  exists files lines,
    (forall info, In info files -> exists r, r <> [] /\ path info = dir_path ++ r)
    /\ forall s, disk s = t ->
         scan_directory env dir_path s = Normal files (add_cerr lines s).
Proof.
  intro Hdir.
  destruct (scan_entries_total (walk dir_path (Dir es)) t []) as [files [lines [Hin H]]].
  exists files, lines. split.
  - intros info Hinfo. destruct (Hin info Hinfo) as [[] | Hp].
    apply in_map_iff in Hp. destruct Hp as [[q n] [Hq Hw]]. simpl in Hq. subst q.
    now apply walk_below in Hw.
  - intros s Hs. unfold scan_directory, bind, recursive_directory_iterator.
    rewrite Hs, Hdir. now apply H.
Qed.

(** On anything else the iterator throws, and nothing has changed. *)
Lemma scan_directory_throws dir_path s :
  (forall es, lookup dir_path (disk s) <> Some (Dir es)) ->
  exists e, scan_directory env dir_path s = Raised e s.
Proof.
  intro H. unfold scan_directory, bind, recursive_directory_iterator.
  destruct (lookup dir_path (disk s)) as [[data mtime | es] |]; eauto.
  now destruct (H es).
Qed.

(** A scan that returned returns the same files from any state with the
    same disk. *)
Lemma scan_directory_returned dir_path s0 files :
  returned (scan_directory env dir_path s0) = Some files ->
  exists lines,
    (forall info, In info files -> exists r, r <> [] /\ path info = dir_path ++ r)
    /\ forall s, disk s = disk s0 ->
         scan_directory env dir_path s = Normal files (add_cerr lines s).
Proof.
  intro H. destruct (lookup dir_path (disk s0)) as [[data mtime | es] |] eqn:E.
  - destruct (scan_directory_throws dir_path s0) as [e He];
      [intros es; congruence | rewrite He in H; discriminate].
  - destruct (scan_directory_total dir_path (disk s0) es E) as [files' [lines [Hin Hs]]].
    rewrite (Hs s0 eq_refl) in H. inversion H; subst files'. eauto.
  - destruct (scan_directory_throws dir_path s0) as [e He];
      [intros es; congruence | rewrite He in H; discriminate].
Qed.

(* ----------------------------------------------------------------- *)
(** *** One turn of each loop *)

Ltac calls_done :=
  repeat split; try assumption; try reflexivity;
  simpl; rewrite <- ?app_assoc; reflexivity.

Lemma create_directories_normal p s s' :
  create_directories p s = Normal tt s' ->
  exists t, mkdirs p (disk s) = Some t
            /\ s' = log_call (CreateDirectories p true) (with_disk t s).
Proof.
  unfold create_directories. destruct (mkdirs p (disk s)) as [t |];
    intro H; inversion H. eauto.
Qed.

Lemma copy_step_normal source_dir current_backup_dir copied_files file_info s n s' :
  copy_step env source_dir current_backup_dir copied_files file_info s = Normal n s' ->
  let dest_path := current_backup_dir // relative (path file_info) source_dir in
  exists t1,
    mkdirs (parent_path dest_path) (disk s) = Some t1
    /\ backup_history s' = backup_history s
    /\ cout s' = cout s
    /\ ((exists t2,
           copy_file_disk env (path file_info) dest_path t1 = Some t2
           /\ disk s' = t2 /\ n = S copied_files
           /\ calls s' = calls s ++ [CreateDirectories (parent_path dest_path) true;
                                     CopyFile (path file_info) dest_path true])
        \/ (copy_file_disk env (path file_info) dest_path t1 = None
            /\ disk s' = t1 /\ n = copied_files
            /\ calls s' = calls s ++ [CreateDirectories (parent_path dest_path) true;
                                      CopyFile (path file_info) dest_path false])).
Proof.
  unfold copy_step. intro H. apply bind_normal in H.
  destruct H as [[] [s1 [H1 H2]]].
  apply create_directories_normal in H1. destruct H1 as [t1 [Ht1 ->]].
  exists t1. split; [assumption |].
  unfold try_catch, bind, copy_file, ret, cerr_line in H2. simpl in H2.
  destruct (copy_file_disk env (path file_info)
              (current_backup_dir // relative (path file_info) source_dir) t1)
    as [t2 |] eqn:E; inversion H2; subst; simpl.
  - repeat split. left. exists t2. calls_done.
  - repeat split. right. calls_done.
Qed.

Lemma link_step_normal source_dir latest_backup current_backup_dir source_files
    backup_file s s' :
  link_step env source_dir latest_backup current_backup_dir source_files tt
            backup_file s = Normal tt s' ->
  let relative_path := relative (path backup_file) latest_backup in
  let dest_path := current_backup_dir // relative_path in
  backup_history s' = backup_history s
  /\ cout s' = cout s
  /\ ((need_copy source_dir source_files relative_path backup_file = false /\ s' = s)
      \/ (need_copy source_dir source_files relative_path backup_file = true
          /\ exists t1,
               mkdirs (parent_path dest_path) (disk s) = Some t1
               /\ ((exists t2,
                      create_hard_link_disk env (path backup_file) dest_path t1 = Some t2
                      /\ disk s' = t2
                      /\ calls s' = calls s ++
                           [CreateDirectories (parent_path dest_path) true;
                            CreateHardLink (path backup_file) dest_path true])
                   \/ (create_hard_link_disk env (path backup_file) dest_path t1 = None
                       /\ exists t2,
                            copy_file_disk env (path backup_file) dest_path t1 = Some t2
                            /\ disk s' = t2
                            /\ calls s' = calls s ++
                                 [CreateDirectories (parent_path dest_path) true;
                                  CreateHardLink (path backup_file) dest_path false;
                                  CopyFile (path backup_file) dest_path true])
                   \/ (create_hard_link_disk env (path backup_file) dest_path t1 = None
                       /\ copy_file_disk env (path backup_file) dest_path t1 = None
                       /\ disk s' = t1
                       /\ calls s' = calls s ++
                            [CreateDirectories (parent_path dest_path) true;
                             CreateHardLink (path backup_file) dest_path false;
                             CopyFile (path backup_file) dest_path false])))).
Proof.
  unfold link_step. intro H. cbv zeta.
  destruct (need_copy source_dir source_files
              (relative (path backup_file) latest_backup) backup_file) eqn:N.
  - apply bind_normal in H. destruct H as [[] [s1 [H1 H2]]].
    apply create_directories_normal in H1. destruct H1 as [t1 [Ht1 ->]].
    unfold try_catch, create_hard_link, copy_file, cerr_line in H2. simpl in H2.
    destruct (create_hard_link_disk env (path backup_file)
                (current_backup_dir // relative (path backup_file) latest_backup) t1)
      as [t2 |] eqn:EL.
    + inversion H2; subst; simpl. repeat split. right. split; [reflexivity |].
      exists t1. split; [assumption |]. left. exists t2. calls_done.
    + simpl in H2.
      destruct (copy_file_disk env (path backup_file)
                  (current_backup_dir // relative (path backup_file) latest_backup) t1)
        as [t2 |] eqn:EC; inversion H2; subst; simpl; repeat split; right;
        (split; [reflexivity |]); exists t1; (split; [assumption |]); right.
      * left. split; [assumption |]. exists t2. calls_done.
      * right. calls_done.
  - inversion H; subst. repeat split. left. auto.
Qed.

End Steps.

(* ================================================================= *)
(** ** The course of a run that returns *)

Lemma same_but_console_refl s : same_but_console s s.
Proof. repeat split. Qed.

Lemma same_but_console_trans s1 s2 s3 :
  same_but_console s1 s2 -> same_but_console s2 s3 -> same_but_console s1 s3.
Proof.
  intros [A [B C]] [A' [B' C']]. repeat split; congruence.
Qed.

Lemma cout_line_normal text s u s' :
  cout_line text s = Normal u s' -> same_but_console s s' /\ cout s' = cout s ++ [text].
Proof. intro H. inversion H; subst. repeat split. Qed.

Lemma add_cerr_same s lines : same_but_console s (add_cerr lines s).
Proof. repeat split. Qed.

Section Courses.

Variable env : Env.

Lemma scan_directory_normal dir_path s files s' :
  scan_directory env dir_path s = Normal files s' ->
  returned (scan_directory env dir_path s) = Some files
  /\ same_but_console s s' /\ cout s' = cout s.
Proof.
  intro H. split; [now rewrite H |].
  assert (Hr : returned (scan_directory env dir_path s) = Some files) by now rewrite H.
  apply scan_directory_returned in Hr. destruct Hr as [lines [_ Hs]].
  rewrite (Hs s eq_refl) in H. inversion H; subst. repeat split.
Qed.

(** A scan sees the disk only. *)
Lemma scan_directory_disk dir_path s s' :
  disk s' = disk s ->
  returned (scan_directory env dir_path s') = returned (scan_directory env dir_path s).
Proof.
  intro Hd. destruct (scan_directory env dir_path s) as [files s1 | e s1] eqn:E.
  - assert (Hr : returned (scan_directory env dir_path s) = Some files) by now rewrite E.
    apply scan_directory_returned in Hr. destruct Hr as [lines [_ Hs]].
    now rewrite (Hs s' Hd).
  - destruct (lookup dir_path (disk s)) as [[data mtime | es] |] eqn:L.
    + destruct (scan_directory_throws env dir_path s') as [e' He'];
        [intros es; congruence | now rewrite He'].
    + destruct (scan_directory_total env dir_path (disk s) es L) as [f [l [_ Hs]]].
      rewrite (Hs s eq_refl) in E. discriminate.
    + destruct (scan_directory_throws env dir_path s') as [e' He'];
        [intros es; congruence | now rewrite He'].
Qed.

Lemma append_text_normal p text s u s' :
  append_text env p text s = Normal u s' ->
  disk s' = append_result env p text (disk s)
  /\ backup_history s' = backup_history s
  /\ cout s' = cout s
  /\ exists ok, calls s' = calls s ++ [AppendText p ok].
Proof.
  unfold append_text, append_result.
  destruct (append_text_disk env p text (disk s)); intro H; inversion H; subst;
    simpl; repeat split; eauto.
Qed.

(** The course of a full backup that returns [true]. *)
Lemma create_backup_true source_dir backup_dir s0 s :
  create_backup env source_dir backup_dir s0 = Normal true s ->
  let current_backup_dir := snapshot_dir backup_dir (current_timestamp env) in
  exists t1 source_files s1 copied s2,
    lookup source_dir (disk s0) <> None
    /\ mkdirs current_backup_dir (disk s0) = Some t1
    /\ returned (scan_directory env source_dir (with_disk t1 s0)) = Some source_files
    /\ disk s1 = t1
    /\ backup_history s1 = backup_history s0
    /\ calls s1 = calls s0 ++ [CreateDirectories current_backup_dir true]
    /\ foldM (copy_step env source_dir current_backup_dir) source_files 0 s1
       = Normal copied s2
    /\ backup_history s
       = backup_history s2
         ++ [full_record env source_dir backup_dir (length source_files) copied]
    /\ disk s
       = append_result env (history_file backup_dir)
           (full_history_line (current_timestamp env) source_dir copied
                              (length source_files)) (disk s2)
    /\ exists ok, calls s = calls s2 ++ [AppendText (history_file backup_dir) ok].
Proof.
  unfold create_backup. intro H.
  apply bind_normal in H. destruct H as [present [sa [Ha H]]].
  unfold fs_exists in Ha. inversion Ha; subst sa; clear Ha.
  destruct (lookup source_dir (disk s0)) as [n |] eqn:Esrc; subst present; simpl in H.
  2:{ apply bind_normal in H. destruct H as [u [sb [_ H]]]. inversion H. }
  apply bind_normal in H. destruct H as [[] [sb [Hb H]]].
  apply create_directories_normal in Hb. destruct Hb as [t1 [Ht1 ->]].
  apply bind_normal in H. destruct H as [[] [sc [Hc H]]].
  apply cout_line_normal in Hc. destruct Hc as [[Hc1 [Hc2 Hc3]] _].
  apply bind_normal in H. destruct H as [source_files [sd [Hd H]]].
  apply scan_directory_normal in Hd. destruct Hd as [Hd0 [[Hd1 [Hd2 Hd3]] _]].
  apply bind_normal in H. destruct H as [[] [se [He H]]].
  apply cout_line_normal in He. destruct He as [[He1 [He2 He3]] _].
  apply bind_normal in H. destruct H as [copied [s2 [Hloop H]]].
  apply bind_normal in H. destruct H as [[] [sf [Hf H]]].
  inversion Hf; subst sf; clear Hf.
  apply bind_normal in H. destruct H as [[] [sg [Hg H]]].
  apply append_text_normal in Hg. simpl in Hg. destruct Hg as [Hg1 [Hg2 [_ Hg3]]].
  apply bind_normal in H. destruct H as [[] [sh [Hh H]]].
  apply cout_line_normal in Hh. destruct Hh as [[Hh1 [Hh2 Hh3]] _].
  apply bind_normal in H. destruct H as [[] [si [Hi H]]].
  apply cout_line_normal in Hi. destruct Hi as [[Hi1 [Hi2 Hi3]] _].
  inversion H; subst si; clear H.
  exists t1, source_files, se, copied, s2.
  split; [discriminate |]. split; [assumption |].
  split.
  { rewrite <- Hd0. symmetry. apply scan_directory_disk. now rewrite Hc1. }
  split; [now rewrite He1, Hd1, Hc1 |].
  split; [now rewrite He2, Hd2, Hc2 |].
  split; [now rewrite He3, Hd3, Hc3 |].
  split; [assumption |].
  split; [now rewrite Hi2, Hh2, Hg2 |].
  split; [now rewrite Hi1, Hh1, Hg1 |].
  destruct Hg3 as [ok Hok]. exists ok. now rewrite Hi3, Hh3, Hok.
Qed.

Lemma directory_iterator_normal p s entries s' :
  directory_iterator p s = Normal entries s' ->
  s' = s /\ exists es, lookup p (disk s) = Some (Dir es)
                      /\ entries = map (fun e => (p // [fst e], snd e)) es.
Proof.
  unfold directory_iterator.
  destruct (lookup p (disk s)) as [[data mtime | es] |]; intro H; inversion H.
  split; [reflexivity |]. now exists es.
Qed.

(** The course of an incremental backup that returns [true]: either there
    was no earlier backup and a full backup ran, or both loops ran. *)
Lemma incremental_backup_true source_dir backup_dir s0 s :
  incremental_backup env source_dir backup_dir s0 = Normal true s ->
  let current_backup_dir := snapshot_dir backup_dir (current_timestamp env) in
  exists entries,
    lookup source_dir (disk s0) <> None
    /\ returned (directory_iterator backup_dir s0) = Some entries
    /\ ((backups_of entries = []
         /\ exists s0', same_but_console s0 s0'
                        /\ create_backup env source_dir backup_dir s0' = Normal true s)
        \/ (backups_of entries <> []
            /\ exists source_files backup_files t1 s1 copied s2 s2' s3,
                 let latest_backup := latest_of entries in
                 let files_to_backup :=
                   files_to_backup_of source_dir source_files backup_files in
                 returned (scan_directory env source_dir s0) = Some source_files
                 /\ returned (scan_directory env latest_backup s0) = Some backup_files
                 /\ files_to_backup <> []
                 /\ mkdirs current_backup_dir (disk s0) = Some t1
                 /\ disk s1 = t1
                 /\ backup_history s1 = backup_history s0
                 /\ calls s1 = calls s0 ++ [CreateDirectories current_backup_dir true]
                 /\ foldM (copy_step env source_dir current_backup_dir)
                          files_to_backup 0 s1 = Normal copied s2
                 /\ same_but_console s2 s2'
                 /\ foldM (link_step env source_dir latest_backup current_backup_dir
                                     source_files) backup_files tt s2' = Normal tt s3
                 /\ backup_history s
                    = backup_history s3
                      ++ [incremental_record env source_dir backup_dir latest_backup
                            (length source_files) copied]
                 /\ disk s
                    = append_result env (history_file backup_dir)
                        (incremental_history_line (current_timestamp env) source_dir
                           copied (length files_to_backup)) (disk s3)
                 /\ exists ok,
                      calls s = calls s3 ++ [AppendText (history_file backup_dir) ok])).
Proof.
  unfold incremental_backup. intro H.
  apply bind_normal in H. destruct H as [present [sa [Ha H]]].
  unfold fs_exists in Ha. inversion Ha; subst sa; clear Ha.
  destruct (lookup source_dir (disk s0)) as [n |] eqn:Esrc; subst present; simpl in H.
  2:{ apply bind_normal in H. destruct H as [u [sb [_ H]]]. inversion H. }
  apply bind_normal in H. destruct H as [entries [sb [Hb H]]].
  assert (Hent : returned (directory_iterator backup_dir s0) = Some entries)
    by now rewrite Hb.
  apply directory_iterator_normal in Hb. destruct Hb as [-> _].
  exists entries. split; [discriminate |]. split; [assumption |].
  fold (backups_of entries) in H. fold (latest_of entries) in H.
  destruct (backups_of entries) as [| b bs] eqn:Eb.
  - left. split; [reflexivity |].
    apply bind_normal in H. destruct H as [[] [sc [Hc H]]].
    apply cout_line_normal in Hc. destruct Hc as [Hc _]. now exists sc.
  - right. split; [discriminate |].
    apply bind_normal in H. destruct H as [[] [sc [Hc H]]].
    apply cout_line_normal in Hc. destruct Hc as [[Hc1 [Hc2 Hc3]] _].
    apply bind_normal in H. destruct H as [[] [sd [Hd H]]].
    apply cout_line_normal in Hd. destruct Hd as [[Hd1 [Hd2 Hd3]] _].
    apply bind_normal in H. destruct H as [source_files [se [He H]]].
    apply scan_directory_normal in He. destruct He as [He0 [[He1 [He2 He3]] _]].
    apply bind_normal in H. destruct H as [backup_files [sf [Hf H]]].
    apply scan_directory_normal in Hf. destruct Hf as [Hf0 [[Hf1 [Hf2 Hf3]] _]].
    destruct (files_to_backup_of source_dir source_files backup_files)
      as [| f fs] eqn:Eftb.
    { apply bind_normal in H. destruct H as [u [sg [_ H]]]. inversion H. }
    apply bind_normal in H. destruct H as [[] [sg [Hg H]]].
    apply create_directories_normal in Hg. destruct Hg as [t1 [Ht1 ->]].
    apply bind_normal in H. destruct H as [[] [sh [Hh H]]].
    apply cout_line_normal in Hh. destruct Hh as [[Hh1 [Hh2 Hh3]] _].
    apply bind_normal in H. destruct H as [copied [s2 [Hloop H]]].
    apply bind_normal in H. destruct H as [[] [s2' [Hi H]]].
    apply cout_line_normal in Hi. destruct Hi as [Hi _].
    apply bind_normal in H. destruct H as [[] [s3 [Hlink H]]].
    apply bind_normal in H. destruct H as [[] [sj [Hj H]]].
    inversion Hj; subst sj; clear Hj.
    apply bind_normal in H. destruct H as [[] [sk [Hk H]]].
    apply append_text_normal in Hk. simpl in Hk. destruct Hk as [Hk1 [Hk2 [_ Hk3]]].
    apply bind_normal in H. destruct H as [[] [sl [Hl H]]].
    apply cout_line_normal in Hl. destruct Hl as [[Hl1 [Hl2 Hl3]] _].
    apply bind_normal in H. destruct H as [[] [sm [Hm H]]].
    apply cout_line_normal in Hm. destruct Hm as [[Hm1 [Hm2 Hm3]] _].
    inversion H; subst sm; clear H.
    assert (Dse : disk se = disk s0) by now rewrite He1, Hd1, Hc1.
    assert (Dsf : disk sf = disk s0) by now rewrite Hf1.
    exists source_files, backup_files, t1, sh, copied, s2, s2', s3. cbv zeta.
    rewrite Eftb.
    split.
    { rewrite <- He0. symmetry. apply scan_directory_disk. now rewrite Hd1, Hc1. }
    split.
    { rewrite <- Hf0. symmetry. now apply scan_directory_disk. }
    split; [discriminate |].
    split; [now rewrite <- Dsf |].
    split; [now rewrite Hh1 |].
    split; [rewrite Hh2; simpl; now rewrite Hf2, He2, Hd2, Hc2 |].
    split; [rewrite Hh3; simpl; now rewrite Hf3, He3, Hd3, Hc3 |].
    split; [assumption |].
    split; [assumption |].
    split; [assumption |].
    split; [now rewrite Hm2, Hl2, Hk2 |].
    split; [now rewrite Hm1, Hl1, Hk1 |].
    destruct Hk3 as [ok Hok]. exists ok. now rewrite Hm3, Hl3, Hok.
Qed.

(** What the first loop leaves: the history as it was, the count raised by
    the copies that went through, and calls of the loop's own kind only. *)
Lemma evolves_app t cs t1 cs' t' :
  evolves env t cs t1 -> evolves env t1 cs' t' -> evolves env t (cs ++ cs') t'.
Proof.
  intros H H'. induction H; simpl; [assumption | | | | |];
    econstructor; eauto.
Qed.

Lemma copy_loop_normal source_dir current_backup_dir files : forall n s m s',
  foldM (copy_step env source_dir current_backup_dir) files n s = Normal m s' ->
  backup_history s' = backup_history s
  /\ exists cs,
       calls s' = calls s ++ cs
       /\ m = n + length (filter is_copy cs)
       /\ Forall (copy_loop_call source_dir current_backup_dir files) cs
       /\ evolves env (disk s) cs (disk s').
Proof.
  intros n s m s' H.
  apply (foldM_invariant (copy_step env source_dir current_backup_dir)
           (fun m s' =>
              backup_history s' = backup_history s
              /\ exists cs,
                   calls s' = calls s ++ cs
                   /\ m = n + length (filter is_copy cs)
                   /\ Forall (copy_loop_call source_dir current_backup_dir files) cs
                   /\ evolves env (disk s) cs (disk s'))
           files) with (b := n) (s := s); [| | assumption].
  - intros f b s1 b' s1' Hin [Hh [cs [Hc [Hb [Hall Hev]]]]] Hstep.
    apply copy_step_normal in Hstep. cbv zeta in Hstep.
    destruct Hstep as [t1 [Hmk [Hh' [_ [[t2 [Hcp [Hd [-> Hc']]]] | [Hcp [Hd [-> Hc']]]]]]]].
    + split; [congruence |]. eexists. split; [rewrite Hc', Hc, <- app_assoc; reflexivity |].
      split; [rewrite filter_app, length_app; simpl; lia |].
      split.
      * apply Forall_app. split; [assumption |].
        repeat constructor. now exists f.
      * apply (evolves_app _ _ _ _ _ Hev). rewrite Hd.
        eapply evolves_create_directories; [exact Hmk |].
        eapply evolves_copy; [exact Hcp | constructor].
    + split; [congruence |]. eexists. split; [rewrite Hc', Hc, <- app_assoc; reflexivity |].
      split; [rewrite filter_app, length_app; simpl; lia |].
      split.
      * apply Forall_app. split; [assumption |].
        repeat constructor. now exists f.
      * apply (evolves_app _ _ _ _ _ Hev). rewrite Hd.
        eapply evolves_create_directories; [exact Hmk |].
        eapply evolves_copy_failed; [exact Hcp | constructor].
  - split; [reflexivity |]. exists []. rewrite app_nil_r. simpl.
    repeat split; [lia | constructor | constructor].
Qed.

(** What the second loop leaves. *)
Lemma link_loop_normal source_dir latest_backup current_backup_dir source_files
    backup_files : forall s s',
  foldM (link_step env source_dir latest_backup current_backup_dir source_files)
        backup_files tt s = Normal tt s' ->
  backup_history s' = backup_history s
  /\ exists cs,
       calls s' = calls s ++ cs
       /\ Forall (link_loop_call latest_backup current_backup_dir backup_files) cs
       /\ evolves env (disk s) cs (disk s').
Proof.
  intros s s' H.
  apply (foldM_invariant
           (link_step env source_dir latest_backup current_backup_dir source_files)
           (fun (_ : unit) s' =>
              backup_history s' = backup_history s
              /\ exists cs,
                   calls s' = calls s ++ cs
                   /\ Forall (link_loop_call latest_backup current_backup_dir
                                 backup_files) cs
                   /\ evolves env (disk s) cs (disk s'))
           backup_files) with (b := tt) (s := s) (b' := tt); [| | assumption].
  - intros f [] s1 [] s1' Hin [Hh [cs [Hc [Hall Hev]]]] Hstep.
    apply link_step_normal in Hstep. cbv zeta in Hstep.
    destruct Hstep as [Hh' [_ [[_ ->] | [_ [t1 [Hmk Hcases]]]]]].
    + split; [assumption |]. now exists cs.
    + split; [congruence |].
      destruct Hcases as [[t2 [Hl [Hd Hc']]]
                         | [[Hl [t2 [Hcp [Hd Hc']]]] | [Hl [Hcp [Hd Hc']]]]];
        (eexists; split; [rewrite Hc', Hc, <- app_assoc; reflexivity |]);
        (split; [apply Forall_app; split; [assumption |];
                 repeat constructor; now exists f |]);
        apply (evolves_app _ _ _ _ _ Hev); rewrite Hd;
        (eapply evolves_create_directories; [exact Hmk |]).
      * eapply evolves_link; [exact Hl | constructor].
      * eapply evolves_link_failed; [exact Hl |].
        eapply evolves_copy; [exact Hcp | constructor].
      * eapply evolves_link_failed; [exact Hl |].
        eapply evolves_copy_failed; [exact Hcp | constructor].
  - split; [reflexivity |]. exists []. rewrite app_nil_r.
    repeat split; constructor.
Qed.

End Courses.

(* ================================================================= *)
(** ** The latest backup, and trees that do not overlap *)

Lemma insert_sorted_in p q l : In q (insert_sorted p l) <-> q = p \/ In q l.
Proof.
  induction l as [| x l IH]; simpl.
  - intuition.
  - destruct (path_ltb x p); simpl; rewrite ?IH; intuition.
Qed.

Lemma sort_paths_in q l : In q (sort_paths l) <-> In q l.
Proof.
  induction l as [| x l IH]; simpl; [reflexivity |].
  rewrite insert_sorted_in, IH. intuition.
Qed.

Lemma last_in {A} (l : list A) d : l <> [] -> In (last l d) l.
Proof.
  induction l as [| x l IH]; [contradiction |]. intros _.
  destruct l as [| y l]; [now left |]. right. apply IH. discriminate.
Qed.

(** The latest backup is one of the backups found. *)
Lemma latest_of_in entries :
  backups_of entries <> [] -> In (latest_of entries) (backups_of entries).
Proof.
  intro H. unfold latest_of. apply sort_paths_in. apply last_in.
  intro E. apply H. destruct (backups_of entries) as [| b bs]; [reflexivity |].
  exfalso. assert (Hin : In b (sort_paths (b :: bs))) by (apply sort_paths_in; now left).
  rewrite E in Hin. contradiction.
Qed.

Lemma directory_iterator_returned p s entries :
  returned (directory_iterator p s) = Some entries ->
  directory_iterator p s = Normal entries s
  /\ forall q n, In (q, n) entries -> exists c, q = p ++ [c].
Proof.
  unfold directory_iterator.
  destruct (lookup p (disk s)) as [[data mtime | es] |]; intro H; try discriminate.
  inversion H; subst. split; [reflexivity |]. intros q n Hin.
  apply in_map_iff in Hin. destruct Hin as [[c m] [Heq _]]. inversion Heq. now exists c.
Qed.

(** The latest backup lies directly in the backup root. *)
Lemma latest_of_child backup_dir s entries :
  returned (directory_iterator backup_dir s) = Some entries ->
  backups_of entries <> [] ->
  exists c, latest_of entries = backup_dir ++ [c].
Proof.
  intros Hent Hne. apply directory_iterator_returned in Hent. destruct Hent as [_ Hch].
  apply latest_of_in in Hne. unfold backups_of in Hne.
  apply in_map_iff in Hne. destruct Hne as [[q n] [Hq Hin]].
  apply filter_In in Hin. destruct Hin as [Hin _]. simpl in Hq. subst q.
  now apply (Hch _ n).
Qed.

Lemma prefix_comparable (p : fs_path) : forall q a b,
  p ++ a = q ++ b -> is_prefix p q = true \/ is_prefix q p = true.
Proof.
  induction p as [| c p IH]; intros q a b H; [now left |].
  destruct q as [| d q]; [now right |].
  simpl in H. inversion H; subst d. rewrite !is_prefix_cons, String.eqb_refl. simpl.
  now apply (IH q a b).
Qed.

(** What lies below one of two separate trees does not lie below the other. *)
Lemma separate_below p q r : separate p q -> is_prefix p (q ++ r) = false.
Proof.
  intros [Hpq Hqp]. destruct (is_prefix p (q ++ r)) eqn:E; [| reflexivity].
  apply is_prefix_inv in E. destruct E as [r' E]. symmetry in E.
  apply prefix_comparable in E. destruct E; congruence.
Qed.

Lemma filter_none {A} (f : A -> bool) l :
  (forall x, In x l -> f x = false) -> filter f l = [].
Proof.
  induction l as [| x l IH]; intro H; [reflexivity |].
  simpl. rewrite (H x (or_introl eq_refl)). apply IH.
  intros y Hy. apply H. now right.
Qed.

Lemma skipn_app_exact {A} (l l' : list A) : skipn (length l) (l ++ l') = l'.
Proof.
  rewrite skipn_app, skipn_all, Nat.sub_diag. reflexivity.
Qed.

Lemma new_calls_app s0 s cs : calls s = calls s0 ++ cs -> new_calls s0 s = cs.
Proof. unfold new_calls. intros ->. apply skipn_app_exact. Qed.

(* ================================================================= *)
(** ** The properties of the two kinds of backup *)

Section Claims.

Variable env : Env.

Lemma bind_eq {A B} (m : M A) (k : A -> M B) s a s1 :
  m s = Normal a s1 -> bind m k s = k a s1.
Proof. unfold bind. now intros ->. Qed.


(** C6, as the code has it. When the source directory exists and the backup
    root is a directory none of whose entries is a directory with a name that
    begins with [backup_], an incremental backup is the full backup,
    announced by one line on [std::cout]: same outcome, same state. When it
    returns [true], the record it appended says [is_incremental = false]. *)
Theorem C6_without_earlier_backup_a_full_backup_runs
    (source_dir backup_dir : fs_path) (s0 : State) (entries : list (fs_path * node)) :
  lookup source_dir (disk s0) <> None ->
  returned (directory_iterator backup_dir s0) = Some entries ->
  filter is_backup_entry entries = [] ->
  incremental_backup env source_dir backup_dir s0
  = create_backup env source_dir backup_dir (add_cout [no_earlier_backup] s0)
  /\ forall s,
       incremental_backup env source_dir backup_dir s0 = Normal true s ->
       exists record,
         backup_history s = backup_history s0 ++ [record]
         /\ is_incremental record = false.
Proof.
  intros Hsrc Hent Hnone.
  assert (Heq : incremental_backup env source_dir backup_dir s0
                = create_backup env source_dir backup_dir
                    (add_cout [no_earlier_backup] s0)).
  { apply directory_iterator_returned in Hent. destruct Hent as [Hent _].
    unfold incremental_backup.
    rewrite (bind_eq _ _ s0 true s0).
    2:{ unfold fs_exists. destruct (lookup source_dir (disk s0)); congruence. }
    cbn [negb]. rewrite (bind_eq _ _ _ _ _ Hent), Hnone. reflexivity. }
  split; [exact Heq |].
  intros s H. rewrite Heq in H. apply create_backup_true in H. cbv zeta in H.
  destruct H as [t1 [files [s1 [copied [s2 [_ [_ [_ [_ [Hh1 [_ [Hloop [Hh _]]]]]]]]]]]]].
  apply copy_loop_normal in Hloop. destruct Hloop as [Hh2 _].
  eexists. split; [rewrite Hh, Hh2, Hh1; reflexivity | reflexivity].
Qed.

(** C3, as the code has it. When an earlier backup is found, both scans
    return and no source file is taken for new or modified, an incremental
    backup says so on [std::cout] and returns [false] (success returns
    [true]; a missing source directory returns [false] as well). It makes no
    call that changes the file system, so that no snapshot directory is made
    and the history file is as it was, and the history in memory is as it
    was. *)
Theorem C3_no_changes_is_a_no_op
    (source_dir backup_dir : fs_path) (s0 : State)
    (entries : list (fs_path * node)) (source_files backup_files : list FileInfo) :
  returned (directory_iterator backup_dir s0) = Some entries ->
  backups_of entries <> [] ->
  returned (scan_directory env source_dir s0) = Some source_files ->
  returned (scan_directory env (latest_of entries) s0) = Some backup_files ->
  files_to_backup_of source_dir source_files backup_files = [] ->
  exists s,
    incremental_backup env source_dir backup_dir s0 = Normal false s
    /\ last (cout s) "" = no_changes
    /\ disk s = disk s0
    /\ backup_history s = backup_history s0
    /\ calls s = calls s0.
Proof.
  intros Hent Hne Hsf Hbf Hnone.
  assert (Hsrc : lookup source_dir (disk s0) <> None).
  { intro E. destruct (scan_directory_throws env source_dir s0) as [e He];
      [intros es; congruence | rewrite He in Hsf; discriminate]. }
  apply directory_iterator_returned in Hent. destruct Hent as [Hent _].
  apply scan_directory_returned in Hsf. destruct Hsf as [l1 [_ Hsf]].
  apply scan_directory_returned in Hbf. destruct Hbf as [l2 [_ Hbf]].
  unfold incremental_backup.
  rewrite (bind_eq _ _ s0 true s0).
  2:{ unfold fs_exists. destruct (lookup source_dir (disk s0)); congruence. }
  cbn [negb]. rewrite (bind_eq _ _ _ _ _ Hent).
  fold (backups_of entries). fold (latest_of entries).
  destruct (backups_of entries) as [| b bs] eqn:Eb; [contradiction |].
  erewrite bind_eq by reflexivity.
  erewrite bind_eq by reflexivity.
  erewrite bind_eq by (apply Hsf; reflexivity).
  erewrite bind_eq by (apply Hbf; reflexivity).
  rewrite Hnone. eexists. split; [reflexivity |].
  cbn [cout add_cerr disk backup_history calls]. rewrite last_last. repeat split.
Qed.

(** C2, as the code has it. The source tree and the backup root lying apart,
    a backup of either kind that returns [true] has appended one record, whose
    [copied_files] is the number of [copy_file] calls that went through and
    read a file of the source tree. The copies made from the latest snapshot
    after a hard link failed are not in that number. *)
Theorem C2_copied_files_counts_the_copies_from_the_source
    (incremental : bool) (source_dir backup_dir : fs_path) (s0 s : State) :
  separate source_dir backup_dir ->
  run_backup env incremental source_dir backup_dir s0 = Normal true s ->
  exists record,
    backup_history s = backup_history s0 ++ [record]
    /\ copied_files record
       = length (filter (is_copy_from source_dir) (new_calls s0 s)).
Proof.
  intros Hsep H.
  assert (Hfull : forall s0' : State,
            same_but_console s0 s0' ->
            create_backup env source_dir backup_dir s0' = Normal true s ->
            exists record,
              backup_history s = backup_history s0 ++ [record]
              /\ copied_files record
                 = length (filter (is_copy_from source_dir) (new_calls s0 s))).
  { clear H. intros s0' [_ [Hh0 Hc0]] H.
    apply create_backup_true in H. cbv zeta in H.
    destruct H as [t1 [files [s1 [copied [s2 [_ [_ [Hscan [_ [Hh1 [Hc1 [Hloop [Hh [_ [ok Hc]]]]]]]]]]]]]]].
    apply scan_directory_returned in Hscan. destruct Hscan as [_ [Hbelow _]].
    apply copy_loop_normal in Hloop. destruct Hloop as [Hh2 [cs [Hc2 [Hn [Hall _]]]]].
    eexists. split; [rewrite Hh, Hh2, Hh1, Hh0; reflexivity |].
    simpl. erewrite new_calls_app.
    2:{ rewrite Hc, Hc2, Hc1, Hc0, <- !app_assoc. reflexivity. }
    simpl. rewrite filter_app. simpl. rewrite app_nil_r.
    rewrite Hn. simpl. f_equal. apply filter_ext_in.
    intros c Hin. rewrite Forall_forall in Hall. specialize (Hall c Hin).
    destruct c as [| from to [|] | |]; simpl in *; try reflexivity; try contradiction.
    destruct Hall as [f [Hf [-> _]]]. destruct (Hbelow f Hf) as [r [_ ->]].
    now rewrite is_prefix_app. }
  destruct incremental; simpl in H; [| now apply (Hfull s0 (same_but_console_refl s0))].
  apply incremental_backup_true in H. cbv zeta in H.
  destruct H as [entries [_ [Hent [[_ [s0' [Hs0' H]]] | [Hne H]]]]];
    [now apply (Hfull s0') |].
  destruct H as [sfs [bfs [t1 [s1 [copied [s2 [s2' [s3 H]]]]]]]].
  destruct H as [Hsf [Hbf [_ [_ [_ [Hh1 [Hc1 [Hloop [[_ [Hh2' Hc2']] [Hlink [Hh [_ [ok Hc]]]]]]]]]]]]].
  apply scan_directory_returned in Hsf. destruct Hsf as [_ [Hbelow _]].
  apply scan_directory_returned in Hbf. destruct Hbf as [_ [Hbelow' _]].
  destruct (latest_of_child _ _ _ Hent Hne) as [name Hlatest].
  apply copy_loop_normal in Hloop. destruct Hloop as [Hh2 [cs [Hc2 [Hn [Hall _]]]]].
  apply link_loop_normal in Hlink. destruct Hlink as [Hh3 [cs' [Hc3 [Hall' _]]]].
  eexists. split; [rewrite Hh, Hh3, Hh2', Hh2, Hh1; reflexivity |].
  simpl. erewrite new_calls_app.
  2:{ rewrite Hc, Hc3, Hc2', Hc2, Hc1, <- !app_assoc. reflexivity. }
  simpl. rewrite !filter_app. simpl. rewrite app_nil_r.
  replace (filter (is_copy_from source_dir) cs') with (@nil call).
  - rewrite app_nil_r, Hn. simpl. f_equal. apply filter_ext_in.
    intros c Hin. rewrite Forall_forall in Hall. specialize (Hall c Hin).
    destruct c as [| from to [|] | |]; simpl in *; try reflexivity; try contradiction.
    destruct Hall as [f [Hf [-> _]]].
    assert (Hf' : In f sfs) by (unfold files_to_backup_of in Hf; now apply filter_In in Hf).
    destruct (Hbelow f Hf') as [r [_ ->]]. now rewrite is_prefix_app.
  - symmetry. apply filter_none. intros c Hin. rewrite Forall_forall in Hall'. specialize (Hall' c Hin).
    destruct c as [| from to [|] | |]; simpl in *; try reflexivity; try contradiction.
    destruct Hall' as [f [Hf [-> _]]]. destruct (Hbelow' f Hf) as [r [_ ->]].
    rewrite Hlatest, <- app_assoc. now rewrite (separate_below _ _ _ Hsep).
Qed.

(* ----------------------------------------------------------------- *)
(** *** A source directory without files *)








(** The snapshot directory is made before the source is read: when reading
    the source throws, the directory is there. *)
Lemma create_backup_makes_directory_before_scanning source_dir backup_dir s0
    data mtime t1 :
  lookup source_dir (disk s0) = Some (File data mtime) ->
  mkdirs (snapshot_dir backup_dir (current_timestamp env)) (disk s0) = Some t1 ->
  exists e s,
    create_backup env source_dir backup_dir s0 = Raised e s
    /\ disk s = t1
    /\ exists es, lookup (snapshot_dir backup_dir (current_timestamp env)) (disk s)
                  = Some (Dir es).
Proof.
  intros Hsrc Hmk. unfold create_backup.
  erewrite bind_eq by (unfold fs_exists; rewrite Hsrc; reflexivity). cbn [negb].
  erewrite bind_eq by (unfold create_directories; rewrite Hmk; reflexivity).
  erewrite bind_eq by reflexivity.
  unfold bind at 1.
  destruct (scan_directory_throws env source_dir
              (add_cout ["正在扫描源目录: " ++ quoted (absolute_string source_dir)]%string
                 (log_call (CreateDirectories
                              (snapshot_dir backup_dir (current_timestamp env)) true)
                           (with_disk t1 s0)))) as [e He].
  { intros es. cbn [add_cout log_call with_disk disk].
    rewrite (mkdirs_keeps_file _ _ _ _ _ _ Hmk Hsrc). discriminate. }
  unfold add_cout in He. cbn [log_call with_disk disk backup_history cout cerr calls] in *.
  unfold cout_line. rewrite He.
  eexists _, _. split; [reflexivity |]. cbn [disk]. split; [reflexivity |].
  now apply mkdirs_makes_directory with (t := disk s0).
Qed.


End Claims.

(* ================================================================= *)
(** ** The properties at work on the worked runs *)


Lemma C2_witness :
  let s0 := Runs.fresh Runs.one_deep in
  let s := state_of (incremental_backup Runs.quiet Runs.src Runs.bak s0) in
  separate Runs.src Runs.bak
  /\ run_backup Runs.quiet true Runs.src Runs.bak s0 = Normal true s
  /\ exists record,
       backup_history s = backup_history s0 ++ [record]
       /\ copied_files record
          = length (filter (is_copy_from Runs.src) (new_calls s0 s)).
Proof.
  cbv zeta.
  assert (Hsep : separate Runs.src Runs.bak) by (split; reflexivity).
  assert (Hrun : run_backup Runs.quiet true Runs.src Runs.bak (Runs.fresh Runs.one_deep)
                 = Normal true
                     (state_of (incremental_backup Runs.quiet Runs.src Runs.bak
                                  (Runs.fresh Runs.one_deep))))
    by (vm_compute; reflexivity).
  split; [exact Hsep |]. split; [exact Hrun |].
  exact (C2_copied_files_counts_the_copies_from_the_source
           Runs.quiet true Runs.src Runs.bak _ _ Hsep Hrun).
Defined.

Lemma C3_witness :
  let s0 := Runs.fresh Runs.untouched in
  let entries :=
    [(Runs.prior, Dir [("d", Dir [("a.txt", File (Runs.bytes "alpha") 15)])])] in
  let source_files := [Runs.info (Runs.src // ["d"; "a.txt"]) "alpha" 10] in
  let backup_files := [Runs.info (Runs.prior // ["d"; "a.txt"]) "alpha" 15] in
  returned (directory_iterator Runs.bak s0) = Some entries
  /\ backups_of entries <> []
  /\ returned (scan_directory Runs.quiet Runs.src s0) = Some source_files
  /\ returned (scan_directory Runs.quiet (latest_of entries) s0) = Some backup_files
  /\ files_to_backup_of Runs.src source_files backup_files = []
  /\ exists s,
       incremental_backup Runs.quiet Runs.src Runs.bak s0 = Normal false s
       /\ last (cout s) "" = no_changes
       /\ disk s = disk s0
       /\ backup_history s = backup_history s0
       /\ calls s = calls s0.
Proof.
  cbv zeta.
  assert (H2 : returned (directory_iterator Runs.bak (Runs.fresh Runs.untouched))
               = Some [(Runs.prior,
                        Dir [("d", Dir [("a.txt", File (Runs.bytes "alpha") 15)])])])
    by (vm_compute; reflexivity).
  assert (H3 : backups_of
                 [(Runs.prior,
                   Dir [("d", Dir [("a.txt", File (Runs.bytes "alpha") 15)])])] <> [])
    by (vm_compute; discriminate).
  assert (H4 : returned (scan_directory Runs.quiet Runs.src (Runs.fresh Runs.untouched))
               = Some [Runs.info (Runs.src // ["d"; "a.txt"]) "alpha" 10])
    by (vm_compute; reflexivity).
  assert (H5 : returned (scan_directory Runs.quiet
                           (latest_of
                              [(Runs.prior,
                                Dir [("d", Dir [("a.txt", File (Runs.bytes "alpha") 15)])])])
                           (Runs.fresh Runs.untouched))
               = Some [Runs.info (Runs.prior // ["d"; "a.txt"]) "alpha" 15])
    by (vm_compute; reflexivity).
  assert (H6 : files_to_backup_of Runs.src
                 [Runs.info (Runs.src // ["d"; "a.txt"]) "alpha" 10]
                 [Runs.info (Runs.prior // ["d"; "a.txt"]) "alpha" 15] = [])
    by (vm_compute; reflexivity).
  repeat (split; [assumption |]).
  exact (C3_no_changes_is_a_no_op Runs.quiet Runs.src Runs.bak _ _ _ _
           H2 H3 H4 H5 H6).
Defined.

Lemma C6_witness :
  let s0 := Runs.fresh Runs.empty_source in
  lookup Runs.src (disk s0) <> None
  /\ returned (directory_iterator Runs.bak s0) = Some []
  /\ filter is_backup_entry [] = []
  /\ incremental_backup Runs.quiet Runs.src Runs.bak s0
     = create_backup Runs.quiet Runs.src Runs.bak (add_cout [no_earlier_backup] s0)
  /\ forall s,
       incremental_backup Runs.quiet Runs.src Runs.bak s0 = Normal true s ->
       exists record,
         backup_history s = backup_history s0 ++ [record]
         /\ is_incremental record = false.
Proof.
  cbv zeta.
  assert (H1 : lookup Runs.src (disk (Runs.fresh Runs.empty_source)) <> None)
    by (vm_compute; discriminate).
  assert (H2 : returned (directory_iterator Runs.bak (Runs.fresh Runs.empty_source))
               = Some []) by reflexivity.
  split; [exact H1 |]. split; [exact H2 |]. split; [reflexivity |].
  exact (C6_without_earlier_backup_a_full_backup_runs
           Runs.quiet Runs.src Runs.bak _ [] H1 H2 eq_refl).
Defined.

(* ================================================================= *)
(** ** Runs that part from the description of the system *)

Section WorkedRuns.

Import Runs.

(** C1. [a.txt] lies directly in the source directory with the bytes it has
    in the latest snapshot. The incremental run nevertheless copies it from
    the source tree, and makes no hard link at all: a file directly below the
    snapshot is compared under the name [backup_.../a.txt], which no source
    file bears. *)
Theorem C1_unchanged_top_level_file_is_copied_again :
  let o := incremental_backup quiet src bak (fresh top_level) in
  file_data (src // ["a.txt"]) top_level = file_data (prior // ["a.txt"]) top_level
  /\ returned o = Some true
  /\ In (CopyFile (src // ["a.txt"]) (snapshot // ["a.txt"]) true)
        (calls (state_of o))
  /\ existsb is_link_attempt (calls (state_of o)) = false.
Proof.
  vm_compute. repeat split; try reflexivity. auto 10.
Qed.

(** C4. An incremental backup into a backup root that does not exist yet
    ends in an exception thrown by the directory iterator, which nothing
    catches; a full backup of the same tree into the same root goes
    through. And one file is enough to end a run half way: where the latest
    snapshot has the directory [d] and the source now the regular file [d],
    the first loop copies [d] into the new snapshot, [create_directories]
    throws in the second loop on the way to [d/x], and the run ends there,
    the new snapshot begun and no record made. *)
Theorem C4_exceptions_leave_the_run :
  let usb := ["mnt"; "usb"] in
  let o := incremental_backup quiet src bak (fresh replaced) in
  lookup usb top_level = None
  /\ incremental_backup quiet src usb (fresh top_level)
     = Raised (filesystem_error
                 "filesystem error: directory iterator cannot open directory")
              (fresh top_level)
  /\ returned (create_backup quiet src usb (fresh top_level)) = Some true
  /\ returned o = None
  /\ calls (state_of o)
     = [CreateDirectories snapshot true;
        CreateDirectories snapshot true;
        CopyFile (src // ["d"]) (snapshot // ["d"]) true;
        CreateDirectories (snapshot // ["d"]) false]
  /\ backup_history (state_of o) = [].
Proof.
  vm_compute. repeat split; reflexivity.
Qed.

(** C5. [d/f] was rewritten since the latest snapshot, so its bytes and its
    digest differ from those of the snapshot's [d/f]. The snapshot also holds
    [archive/d/f]; the search compares the last two components only, meets
    [archive/d/f] first, finds the digest of the new bytes there, and the run
    ends with "no changes": nothing is copied. *)
Theorem C5_modified_file_taken_for_unchanged :
  let o := incremental_backup quiet src bak (fresh namesake) in
  file_data (src // ["d"; "f"]) namesake = Some (bytes "second draft")
  /\ file_data (prior // ["d"; "f"]) namesake = Some (bytes "first draft")
  /\ digest_of (bytes "second draft") <> digest_of (bytes "first draft")
  /\ returned o = Some false
  /\ calls (state_of o) = []
  /\ disk (state_of o) = namesake.
Proof.
  vm_compute. repeat split; try reflexivity. intro H; discriminate H.
Qed.

(** C7. No hard link can be made on this system. [d/a.txt] is unchanged
    since the latest snapshot and [d/b.txt] was rewritten, so a new snapshot
    is made. For the unchanged [d/a.txt] neither a link nor a copy is tried,
    and the new snapshot does not hold it: the second loop passes over
    exactly the files whose path and digest are found in the source. *)
Theorem C7_unchanged_file_missing_when_links_fail :
  let o := incremental_backup no_links src bak (fresh one_deep) in
  file_data (src // ["d"; "a.txt"]) one_deep
    = file_data (prior // ["d"; "a.txt"]) one_deep
  /\ returned o = Some true
  /\ existsb (writes_at (snapshot // ["d"; "a.txt"])) (calls (state_of o)) = false
  /\ lookup (snapshot // ["d"; "a.txt"]) (disk (state_of o)) = None.
Proof.
  vm_compute. repeat split; reflexivity.
Qed.

(** C2, refuted as stated. One file is copied from the source and one is
    copied from the latest snapshot after its hard link failed: two files
    are written by copying, and the record says one. *)
Lemma C2_fallback_copy_is_not_counted :
  let o := incremental_backup quiet src bak (fresh one_deep) in
  returned o = Some true
  /\ length (filter is_copy (calls (state_of o))) = 2
  /\ map copied_files (backup_history (state_of o)) = [1].
Proof.
  vm_compute. repeat split; reflexivity.
Qed.

(** C3, refuted as stated. With nothing changed the run returns the very
    value it returns when the source directory is missing. *)
Lemma C3_no_changes_returns_what_failure_returns :
  let gone := ["home"; "gone"] in
  lookup gone untouched = None
  /\ returned (incremental_backup quiet src bak (fresh untouched)) = Some false
  /\ returned (incremental_backup quiet gone bak (fresh untouched)) = Some false
  /\ returned (create_backup quiet gone bak (fresh untouched)) = Some false.
Proof.
  vm_compute. repeat split; reflexivity.
Qed.

(** C6, refuted as stated. The backup root holds one directory,
    [backup_old], which is not named [backup_<timestamp>] (the latest
    snapshot of the other runs is); the incremental backup takes it for the
    latest backup, and the record it appends says [is_incremental = true],
    where the full backup of the same tree says [false]. *)
Lemma C6_any_directory_named_backup_counts :
  let o := incremental_backup quiet src bak (fresh renamed) in
  let full := create_backup quiet src bak (fresh renamed) in
  returned (directory_iterator bak (fresh renamed)) = Some [(bak // ["backup_old"], Dir [])]
  /\ spec_snapshot_name "backup_old" = false
  /\ spec_snapshot_name old_snapshot = true
  /\ returned o = Some true
  /\ map is_incremental (backup_history (state_of o)) = [true]
  /\ map based_on (backup_history (state_of o)) = ["backup_old"]
  /\ map is_incremental (backup_history (state_of full)) = [false].
Proof.
  vm_compute. repeat split; reflexivity.
Qed.


(** C9. [d/a.txt] is in the source and in the latest snapshot, with the same
    bytes, and [d/b.txt] was rewritten. The new snapshot is made and does
    not hold [d/a.txt]: no call writes there, the second loop passing over
    exactly the files whose path and digest it finds in the source. So the
    files of the new snapshot are not the union of those of the source and
    those of the latest snapshot. And [d/b.txt], copied from the source by
    the first loop, is overwritten by the second with the bytes of the latest
    snapshot. *)
Theorem C9_unchanged_file_is_left_out_of_the_new_snapshot :
  let o := incremental_backup quiet src bak (fresh one_deep) in
  file_data (src // ["d"; "a.txt"]) one_deep = Some (bytes "alpha")
  /\ file_data (prior // ["d"; "a.txt"]) one_deep = Some (bytes "alpha")
  /\ returned o = Some true
  /\ existsb (writes_at (snapshot // ["d"; "a.txt"])) (calls (state_of o)) = false
  /\ lookup (snapshot // ["d"; "a.txt"]) (disk (state_of o)) = None
  /\ file_data (src // ["d"; "b.txt"]) one_deep = Some (bytes "beta, revised")
  /\ calls (state_of o)
     = [CreateDirectories snapshot true;
        CreateDirectories (snapshot // ["d"]) true;
        CopyFile (src // ["d"; "b.txt"]) (snapshot // ["d"; "b.txt"]) true;
        CreateDirectories (snapshot // ["d"]) true;
        CreateHardLink (prior // ["d"; "b.txt"]) (snapshot // ["d"; "b.txt"]) false;
        CopyFile (prior // ["d"; "b.txt"]) (snapshot // ["d"; "b.txt"]) true;
        AppendText (bak // ["backup_history.txt"]) true]
  /\ file_data (snapshot // ["d"; "b.txt"]) (disk (state_of o)) = Some (bytes "beta").
Proof.
  vm_compute. repeat split; reflexivity.
Qed.

End WorkedRuns.
